(** * The 21-state cellular automaton of [src/Mirror/2.5D.py]

    A shallow embedding of the state table, of the weight-to-state lookup
    table and of the vectorised [update_grid], followed by the properties of
    one generation step.

    Modelling conventions.
    - A NumPy 2-D integer array is a list of rows; the array of weight
      triples of shape (rows, cols, 3) is a list of rows of triples.
    - An index into a NumPy array that is out of bounds raises [IndexError];
      a negative index in range counts from the end.  Fallible indexing
      returns [option], and [None] stands for the raised exception.
    - [weighted_sum] is a float32 array, but it only ever holds integers in
      [0, 72], and it is divided (in float64, the common type of float32
      and int32) by an integer in [1, 36]: the quotient is
      either an exact half-integer or at least 1/72 away from one, so
      [np.rint] of the computed quotient is the round-half-to-even of the
      exact rational.  [rint_div] computes that on integers, and
      [rint_div_float] checks it against binary64 arithmetic on the whole
      range.
    - The module-global generator behind [random.choice] is a stream of
      the indices its successive calls draw, threaded through the function
      explicitly.  How many words of the generator a call uses up is not
      modelled: the stream stands for the outcomes of the calls, and only
      statements over every stream are read off it. *)

From stdpp Require Import base numbers option list strings.
From Stdlib Require Import Floats.

Local Open Scope Z_scope.

(** ** NumPy-style containers *)

Definition triple : Type := Z * Z * Z.

Abbreviation arr2 A := (list (list A)) (only parsing).

(** [x[i]] on a Python / NumPy sequence: negative indices wrap once, anything
    else out of range raises. *)
Definition np_index {A} (l : list A) (i : Z) : option A :=
  let n := Z.of_nat (length l) in
  if bool_decide (0 <= i < n) then l !! Z.to_nat i
  else if bool_decide (- n <= i < 0) then l !! Z.to_nat (i + n)
  else None.

(** [x[r, c]] for indices known to be natural numbers. *)
Definition at2 {A} (x : arr2 A) (r c : nat) : option A :=
  row ← x !! r; row !! c.

(** [x[r, c] = v] *)
Definition set2 {A} (x : arr2 A) (r c : nat) (v : A) : arr2 A :=
  alter (<[c := v]>) r x.

Definition amap {A B} (f : A → B) (x : arr2 A) : arr2 B :=
  fmap (M:=list) (fmap (M:=list) f) x.

(** element-wise binary operation on arrays of one shape *)
Definition amap2 {A B C} (f : A → B → C) (x : arr2 A) (y : arr2 B) : arr2 C :=
  zip_with (zip_with f) x y.

Definition amap3 {A B C D} (f : A → B → C → D)
    (x : arr2 A) (y : arr2 B) (z : arr2 C) : arr2 D :=
  amap2 (λ g c, g c) (amap2 f x y) z.

(** fancy indexing [table[x]] applied to every entry; one failure raises *)
Definition amapM {A B} (f : A → option B) (x : arr2 A) : option (arr2 B) :=
  mapM (mapM f) x.

Definition full {A} (rows cols : nat) (v : A) : arr2 A :=
  replicate rows (replicate cols v).

(** [np.roll(l, shift)] along one axis: [result[i] = l[(i - shift) % n]]. *)
Definition roll {A} (shift : Z) (l : list A) : list A :=
  let n := length l in
  if decide (n = 0%nat) then l
  else let s := Z.to_nat (shift mod Z.of_nat n) in
       drop (n - s) l ++ take (n - s) l.

(** [np.roll(np.roll(grid, shift=di, axis=0), shift=dj, axis=1)] *)
Definition roll2 {A} (di dj : Z) (grid : arr2 A) : arr2 A :=
  fmap (M:=list) (roll dj) (roll di grid).

Fixpoint foldM {A B} (f : A → B → option A) (a : A) (l : list B) : option A :=
  match l with
  | [] => Some a
  | x :: l' => a' ← f a x; foldM f a' l'
  end.

(** ** Triples *)

Definition tadd (u v : triple) : triple :=
  let '(u0, u1, u2) := u in let '(v0, v1, v2) := v in
  (u0 + v0, u1 + v1, u2 + v2).

Definition tscale (k : Z) (v : triple) : triple :=
  let '(v0, v1, v2) := v in (k * v0, k * v1, k * v2).

Definition tmap (f : Z → Z) (v : triple) : triple :=
  let '(v0, v1, v2) := v in (f v0, f v1, f v2).

(** the sum of a list of triples, accumulated from the left as the loop of
    line 78 does *)
Definition tsum (l : list triple) : triple := foldl tadd (0, 0, 0) l.

(** ** The state table (lines 9-49) *)

Record state : Type := State {
  name : string;
  color : triple;
  weight : triple
}.

Definition states : list state := [
  State "Red"         (255, 0, 0)     (1, 0, 0);
  State "Pink"        (255, 0, 128)   (2, 0, 1);
  State "Infrared"    (255, 128, 128) (2, 1, 1);
  State "Orange"      (255, 128, 0)   (2, 1, 0);
  State "Thalo"       (0, 255, 128)   (0, 2, 1);
  State "Camo"        (128, 255, 128) (1, 2, 1);
  State "Lime"        (0, 255, 0)     (0, 1, 0);
  State "Cyan"        (0, 255, 255)   (0, 1, 1);
  State "Violet"      (128, 0, 255)   (1, 0, 2);
  State "Ultraviolet" (255, 128, 255) (2, 1, 2);
  State "Blue"        (0, 0, 255)     (0, 0, 1);
  State "Cerulean"    (0, 128, 255)   (0, 1, 2);
  State "Indigo"      (128, 128, 255) (1, 1, 2);
  State "Magenta"     (255, 0, 255)   (1, 0, 1);
  State "Chartreuse"  (128, 255, 0)   (1, 2, 0);
  State "Aqua"        (128, 255, 255) (1, 2, 2);
  State "Yellow"      (255, 255, 0)   (1, 1, 0);
  State "Mustard"     (255, 255, 128) (2, 2, 1);
  State "Null"        (0, 0, 0)       (0, 0, 0);
  State "Nill"        (255, 255, 255) (2, 2, 2);
  State "N/A"         (128, 128, 128) (1, 1, 1)
].

Definition num_states : Z := Z.of_nat (length states).

Definition weights : list triple := weight <$> states.
Definition colors : list triple := color <$> states.

Definition NULL_IDX : Z := 18.
Definition NILL_IDX : Z := 19.
Definition NA_IDX : Z := 20.

(** [-np.ones((3, 3, 3))] and then [lookup[a, b, c] = idx] for each state in
    order; a triple no state carries keeps the initial [-1]. *)
Abbreviation table3 := (list (list (list Z))) (only parsing).

Definition setitem3 (t : table3) (w : triple) (v : Z) : table3 :=
  let '(a, b, c) := w in
  alter (alter (<[Z.to_nat c := v]>) (Z.to_nat b)) (Z.to_nat a) t.

Definition lookup : table3 :=
  foldl (λ t '(idx, s), setitem3 t (weight s) idx)
        (replicate 3 (replicate 3 (replicate 3 (-1))))
        (imap (λ i s, (Z.of_nat i, s)) states).

(** [weights[s]] *)
Definition weights_at (s : Z) : option triple := np_index weights s.

(** [lookup[a, b, c]] *)
Definition lookup_at (w : triple) : option Z :=
  let '(a, b, c) := w in
  plane ← np_index lookup a; line ← np_index plane b; np_index line c.

(** ** The random source *)

Definition rng_state : Type := nat → nat.

(** [random.choice(seq)]: [seq[randbelow(len(seq))]]; the next value of the
    stream, reduced below the length, is the index drawn, so that every
    index below the length is drawn by some stream.  The stream handed on
    is only the supply of the later calls' outcomes, not the state of the
    generator.  An empty [seq] raises. *)
Definition random_choice {A} (rng : rng_state) (seq : list A)
    : option (A * rng_state) :=
  x ← seq !! (rng 0%nat mod length seq)%nat;
  Some (x, λ k, rng (S k)).

(** ** [update_grid] (lines 54-111) *)

Definition offsets : list (Z * Z) :=
  [(-1, -1); (-1, 0); (-1, 1);
   (0, -1);  (0, 0);  (0, 1);
   (1, -1);  (1, 0);  (1, 1)].

(** [np.where(d == -1, a_arr, np.where(d == 0, b_arr, c_arr))] with a scalar
    condition: one of the three arrays, whole. *)
Definition where3 {A} (d : Z) (a_arr b_arr c_arr : A) : A :=
  if d =? -1 then a_arr else if d =? 0 then b_arr else c_arr.

Definition coeffs_of (cell_weights : arr2 triple) : list (arr2 Z) :=
  let a_arr := amap (λ w, w.1.1) cell_weights in
  let b_arr := amap (λ w, w.1.2) cell_weights in
  let c_arr := amap (λ w, w.2) cell_weights in
  (λ '(di, dj),
     let hor := where3 dj a_arr b_arr c_arr in
     let ver := where3 di a_arr b_arr c_arr in
     amap2 Z.mul hor ver) <$> offsets.

(** [np.sum(coeffs, axis=0)] *)
Definition sum_axis0 (rows cols : nat) (xs : list (arr2 Z)) : arr2 Z :=
  foldl (amap2 Z.add) (full rows cols 0) xs.

(** the accumulation loop of lines 74-78 *)
Definition weighted_sum_of (grid : arr2 Z) (rows cols : nat)
    (coeffs : list (arr2 Z)) : option (arr2 triple) :=
  foldM (λ weighted_sum '(coeff, (di, dj)),
           let rolled := roll2 di dj grid in
           neighbor_weights ← amapM weights_at rolled;
           Some (amap2 tadd weighted_sum (amap2 tscale coeff neighbor_weights)))
        (full rows cols (0, 0, 0))
        (zip coeffs offsets).

(** [np.rint(p / q)] for integers [0 <= p] and [0 < q]: round half to even. *)
Definition rint_div (p q : Z) : Z :=
  let k := p / q in
  let r := p mod q in
  if 2 * r <? q then k
  else if q <? 2 * r then k + 1
  else if Z.even k then k else k + 1.

Definition new_components_of (total_filter : arr2 Z)
    (weighted_sum cell_weights : arr2 triple) : arr2 triple :=
  amap3 (λ tf ws cw,
           if negb (tf =? 0) then tmap (λ p, rint_div p tf) ws else cw)
        total_filter weighted_sum cell_weights.

Definition twist_of (nc : triple) : triple := tmap (λ v, (v + 1) mod 3) nc.

(** wrap-around index [(y + d) % n] of lines 102-103; the loop only runs on
    a grid that has a cell, where [n] is positive *)
Definition wrap (n : nat) (i : Z) : nat := Z.to_nat (i mod Z.of_nat n).

(** [np.argwhere(grid == v)]: the positions holding [v], row by row *)
Definition argwhere_eq (v : Z) (grid : arr2 Z) : list (nat * nat) :=
  mjoin (imap (λ r row,
                 omap (λ p, p) (imap (λ c g, if g =? v then Some (r, c) else None) row))
              grid).

(** the [choices] list of one Nill cell, lines 100-105 *)
Definition choices_of (grid : arr2 Z) (rows cols y x : nat) : option (list Z) :=
  vals ← mapM (λ '(di, dj),
                 at2 grid (wrap rows (Z.of_nat y + di)) (wrap cols (Z.of_nat x + dj)))
              offsets;
  Some (filter (λ g, g ≠ NULL_IDX) vals).

(** one iteration of the loop of lines 99-109 *)
Definition nill_step (grid : arr2 Z) (rows cols : nat)
    (st : arr2 Z * rng_state) (yx : nat * nat) : option (arr2 Z * rng_state) :=
  let '(new_grid, rng) := st in
  let '(y, x) := yx in
  choices ← choices_of grid rows cols y x;
  match choices with
  | _ :: _ =>
      '(v, rng') ← random_choice rng choices;
      Some (set2 new_grid y x v, rng')
  | [] =>
      g ← at2 grid y x;
      Some (set2 new_grid y x g, rng)
  end.

(** the local arrays of [update_grid] once line 84 has run *)
Record vote_locals : Type := VoteLocals {
  cell_weights : list (list triple);
  coeffs : list (list (list Z));
  total_filter : list (list Z);
  weighted_sum : list (list triple);
  new_components : list (list triple)
}.

(** lines 55-84: the weighted vote *)
Definition vote (grid : arr2 Z) : option vote_locals :=
  let rows := length grid in
  let cols := length (default [] (head grid)) in
  cell_weights ← amapM weights_at grid;
  let coeffs := coeffs_of cell_weights in
  let total_filter := sum_axis0 rows cols coeffs in
  weighted_sum ← weighted_sum_of grid rows cols coeffs;
  let new_components :=
    new_components_of total_filter weighted_sum cell_weights in
  Some (VoteLocals cell_weights coeffs total_filter weighted_sum new_components).

(** lines 86-111: table lookup, the three special states, the result *)
Definition finish (grid : arr2 Z) (new_components : arr2 triple)
    (rng : rng_state) : option (list (list Z) * rng_state) :=
  let rows := length grid in
  let cols := length (default [] (head grid)) in
  new_state_default ← amapM lookup_at new_components;
  let new_grid := new_state_default in
  (* null_mask *)
  let new_grid := amap2 (λ g n, if g =? NULL_IDX then g else n) grid new_grid in
  (* na_mask *)
  new_grid ← amapM (λ '(g, nc, n),
                      if g =? NA_IDX then lookup_at (twist_of nc) else Some n)
                   (amap3 (λ g nc n, (g, nc, n)) grid new_components new_grid);
  (* nill_indices *)
  foldM (nill_step grid rows cols) (new_grid, rng) (argwhere_eq NILL_IDX grid).

Definition update_grid (grid : arr2 Z) (rng : rng_state)
    : option (list (list Z) * rng_state) :=
  v ← vote grid; finish grid (new_components v) rng.

(** the grid one call returns *)
Definition step (grid : arr2 Z) (rng : rng_state) : option (list (list Z)) :=
  fst <$> update_grid grid rng.

(** ** Cell-wise reading of the arrays *)

Definition nrows {A} (x : arr2 A) : nat := length x.
Definition ncols {A} (x : arr2 A) : nat := length (default [] (head x)).

(** a NumPy 2-D array is rectangular *)
Definition rect {A} (x : arr2 A) : Prop :=
  Forall (λ row, length row = ncols x) x.

(** every entry can index the 21-row [weights] array *)
Definition indexable (grid : arr2 Z) : Prop :=
  Forall (Forall (λ g, -21 <= g <= 20)) grid.

(** every entry is one of the 21 states *)
Definition valid (grid : arr2 Z) : Prop :=
  Forall (Forall (λ g, 0 <= g <= 20)) grid.

(** the array whose entry at [(r, c)] is [f r c] *)
Definition tab {A} (rows cols : nat) (f : nat → nat → A) : list (list A) :=
  (λ r, f r <$> seq 0 cols) <$> seq 0 rows.

Definition cell (grid : arr2 Z) (r c : nat) : Z := default 0 (at2 grid r c).

Definition wt (s : Z) : triple := default (0, 0, 0) (weights_at s).

Definition lk (w : triple) : Z := default (-1) (lookup_at w).

(** [hor * ver] for a centre cell of weight [w] *)
Definition coeff (w : triple) (di dj : Z) : Z :=
  let '(a, b, c) := w in where3 dj a b c * where3 di a b c.

(** the entry of the grid rolled by [(di, dj)] that lands on [(r, c)] *)
Definition rolled_cell (grid : arr2 Z) (r c : nat) (di dj : Z) : Z :=
  cell grid (wrap (nrows grid) (Z.of_nat r - di))
            (wrap (ncols grid) (Z.of_nat c - dj)).

Definition cell_total_filter (grid : arr2 Z) (r c : nat) : Z :=
  foldl Z.add 0 ((λ '(di, dj), coeff (wt (cell grid r c)) di dj) <$> offsets).

Definition cell_weighted_sum (grid : arr2 Z) (r c : nat) : triple :=
  tsum ((λ '(di, dj), tscale (coeff (wt (cell grid r c)) di dj)
                             (wt (rolled_cell grid r c di dj))) <$> offsets).

Definition cell_new_components (grid : arr2 Z) (r c : nat) : triple :=
  let tf := cell_total_filter grid r c in
  if negb (tf =? 0) then tmap (λ p, rint_div p tf) (cell_weighted_sum grid r c)
  else wt (cell grid r c).

(** the state lines 86-96 leave at a cell, from its [new_components] *)
Definition masked (g : Z) (nc : triple) : Z :=
  if g =? NA_IDX then lk (twist_of nc)
  else if g =? NULL_IDX then g
  else lk nc.

(** the weighted sum as the specification words it: the coefficient of
    offset [(di, dj)] multiplies the cell at [(r + di, c + dj)] *)
Definition spec_weighted_sum (grid : arr2 Z) (r c : nat) : triple :=
  tsum ((λ '(di, dj),
           tscale (coeff (wt (cell grid r c)) di dj)
                  (wt (cell grid (wrap (nrows grid) (Z.of_nat r + di))
                                 (wrap (ncols grid) (Z.of_nat c + dj)))))
        <$> offsets).

(** a weight triple over {0, 1, 2} *)
Definition in02 (w : triple) : Prop :=
  (0 <= w.1.1 <= 2) ∧ (0 <= w.1.2 <= 2) ∧ (0 <= w.2 <= 2).

(** every entry is a state or the [-1] an unused slot of [lookup] holds *)
Definition emitted (grid : arr2 Z) : Prop :=
  Forall (Forall (λ g, -1 <= g <= 20)) grid.

(** the non-Null states a Nill cell at [(y, x)] chooses from, in the order
    of [offsets], when the array holds [F r c] at [(r, c)] *)
Definition cell_choices (rows cols : nat) (F : nat → nat → Z) (y x : nat) : list Z :=
  filter (λ g, g ≠ NULL_IDX)
    ((λ '(di, dj), F (wrap rows (Z.of_nat y + di)) (wrap cols (Z.of_nat x + dj)))
       <$> offsets).

(** ** Grids and enumerations the statements below refer to *)

Definition yellow_mustard : list (list Z) := [[16; 17]].
Definition lone_red : list (list Z) := [[18; 18; 18]; [18; 19; 0]; [18; 18; 18]].
Definition blue_corner : list (list Z) := [[0; 0; 0]; [0; 0; 0]; [0; 0; 10]].
Definition red_blue : list (list Z) := [[0; 0; 0]; [0; 10; 0]; [0; 0; 0]].
Definition border3 : list (nat * nat) :=
  [(0, 0); (0, 1); (0, 2); (1, 0); (1, 2); (2, 0); (2, 1); (2, 2)]%nat.
Definition corners3 : list (nat * nat) := [(0, 0); (0, 2); (2, 0); (2, 2)]%nat.
Definition all_triples : list triple :=
  a ← [0; 1; 2]; b ← [0; 1; 2]; c ← [0; 1; 2]; [(a, b, c)].

(** ** The rounding of line 82 in binary64 *)

(** binary64 reading of [np.rint(p / q)]: the quotient as IEEE division
    computes it, rounded to an integer by adding and subtracting 2^52 in
    round-to-nearest-even *)
Definition float_of_Z (z : Z) : float := PrimFloat.of_uint63 (Uint63.of_Z z).
Definition float_rint (x : float) : float :=
  PrimFloat.sub (PrimFloat.add x (float_of_Z (2 ^ 52))) (float_of_Z (2 ^ 52)).
Definition rint_agrees (p q : Z) : bool :=
  PrimFloat.eqb (float_rint (PrimFloat.div (float_of_Z p) (float_of_Z q)))
                (float_of_Z (rint_div p q)).

(** ** The main loop and the isometric rendering (lines 113-187) *)

(** [height_map], line 118: [sum(s["weight"])] per state *)
Definition height_map : list Z :=
  (λ s, let '(a, b, c) := weight s in 0 + a + b + c) <$> states.

Definition TILE_WIDTH : Z := 32.
Definition TILE_HEIGHT : Z := 16.
Definition HEIGHT_SCALE : Z := 3.
Definition GRID_COLS : nat := 100.
Definition GRID_ROWS : nat := 100.

(** [grid = update_grid(grid)] of line 155, run [n] times *)
Fixpoint generations (n : nat) (grid : arr2 Z) (rng : rng_state)
    : option (list (list Z) * rng_state) :=
  match n with
  | O => Some (grid, rng)
  | S n' => '(grid', rng') ← update_grid grid rng; generations n' grid' rng'
  end.

(** lines 140-143, for a grid of [rows] x [cols] cells *)
Definition iso_width (rows cols : nat) : Z :=
  (Z.of_nat cols + Z.of_nat rows) * (TILE_WIDTH / 2).
Definition iso_height (rows cols : nat) : Z :=
  (Z.of_nat cols + Z.of_nat rows) * (TILE_HEIGHT / 2).
Definition offset_x (rows cols : nat) (screen_width : Z) : Z :=
  (screen_width - iso_width rows cols) / 2.
Definition offset_y (rows cols : nat) (screen_height : Z) : Z :=
  (screen_height - iso_height rows cols) / 2.

(** what one frame sends to the screen *)
Inductive draw : Type :=
  | Fill (rgb : triple)
  | Polygon (rgb : triple) (points : list (Z * Z)) (width : Z).

(** an int32 result: the value reduced into [-2^31, 2^31) *)
Definition wrap32 (z : Z) : Z := (z + 2 ^ 31) mod 2 ^ 32 - 2 ^ 31.

(** [k * b] for a Python int [k] that fits int32 and a NumPy int32 scalar
    [b]: an int32 *)
Definition py_mul_int32 (k b : Z) : Z := wrap32 (k * b).

(** [a - b] for a Python int [a] and a NumPy int32 scalar [b], as NumPy 2
    computes it: [a] is converted to int32, which raises [OverflowError]
    when it does not fit, and the difference is an int32.  (Inside the
    int32 range earlier versions give the same value.) *)
Definition py_sub_int32 (a b : Z) : option Z :=
  if bool_decide (- 2 ^ 31 <= a < 2 ^ 31) then Some (wrap32 (a - b)) else None.

(** lines 163-179: the four vertices of the top face of the cell at
    [(row, col)], and its colour.  [iso_x] and [iso_y] are Python ints;
    [h_val], read from the int32 array [height_map], and [h_offset] are
    int32 scalars, so the four y coordinates are int32 differences. *)
Definition tile (grid : arr2 Z) (ox oy : Z) (row col : nat)
    : option (triple * list (Z * Z)) :=
  state_idx ← at2 grid row col;
  st ← np_index states state_idx;
  let iso_x := (Z.of_nat col - Z.of_nat row) * (TILE_WIDTH / 2) + ox in
  let iso_y := (Z.of_nat col + Z.of_nat row) * (TILE_HEIGHT / 2) + oy in
  h_val ← np_index height_map state_idx;
  let h_offset := py_mul_int32 HEIGHT_SCALE h_val in
  top_y ← py_sub_int32 iso_y h_offset;
  let top := (iso_x, top_y) in
  right_y ← py_sub_int32 (iso_y + TILE_HEIGHT / 2) h_offset;
  let right := (iso_x + TILE_WIDTH / 2, right_y) in
  bottom_y ← py_sub_int32 (iso_y + TILE_HEIGHT) h_offset;
  let bottom := (iso_x, bottom_y) in
  left_y ← py_sub_int32 (iso_y + TILE_HEIGHT / 2) h_offset;
  let left := (iso_x - TILE_WIDTH / 2, left_y) in
  Some (color st, [top; right; bottom; left]).

(** lines 158-184: the draw calls of one frame, in order; the two loops run
    over [rows] and [cols] ([GRID_ROWS] and [GRID_COLS] in [main]) *)
Definition render (rows cols : nat) (grid : arr2 Z) (screen_width screen_height : Z)
    : option (list draw) :=
  let ox := offset_x rows cols screen_width in
  let oy := offset_y rows cols screen_height in
  polys ← mapM (λ '(row, col),
                  '(rgb, pts) ← tile grid ox oy row col;
                  Some [Polygon rgb pts 0; Polygon (0, 0, 0) pts 1])
               (row ← seq 0 rows; col ← seq 0 cols; [(row, col)]);
  Some (Fill (30, 30, 30) :: mjoin polys).


(** a grid entry replaced by the index of the row of [states] it selects *)
Definition canonical (g : Z) : Z := g mod 21.


(** [height_map[s]] and [states[s]["color"]] for an entry that indexes them *)
Definition height_of (s : Z) : Z := default 0 (np_index height_map s).
Definition color_of (s : Z) : triple :=
  default (0, 0, 0) (color <$> np_index states s).


(** the cells in the order the loops of lines 161-162 visit them *)
Definition positions (rows cols : nat) : list (nat * nat) :=
  row ← seq 0 rows; col ← seq 0 cols; [(row, col)].


(** small grids the statements below are run on *)
Definition four_cells : list (list Z) := [[0; 18]; [19; -1]].
Definition nine_cells : list (list Z) := [[0; 5; 7]; [3; 10; 9]; [1; 2; 4]].

(** * Arrays in tabulated form *)

Section tab_lemmas.
Context {A : Type}.
Implicit Types (f g : nat → nat → A).

Lemma tab_length rows cols f : length (tab rows cols f) = rows.
Proof. unfold tab. by rewrite length_fmap, length_seq. Qed.

Lemma tab_row rows cols f r :
  (r < rows)%nat → tab rows cols f !! r = Some (f r <$> seq 0 cols).
Proof.
  intros Hr. unfold tab. rewrite list_lookup_fmap, lookup_seq_lt by done.
  done.
Qed.

Lemma tab_lookup rows cols f r c :
  (r < rows)%nat → (c < cols)%nat → at2 (tab rows cols f) r c = Some (f r c).
Proof.
  intros Hr Hc. unfold at2. rewrite tab_row by done. simpl.
  rewrite list_lookup_fmap, lookup_seq_lt by done. done.
Qed.

Lemma tab_lookup_ge_r rows cols f r c :
  (rows ≤ r)%nat → at2 (tab rows cols f) r c = None.
Proof.
  intros Hr. unfold at2. rewrite (lookup_ge_None_2 (tab rows cols f) r); [done|].
  by rewrite tab_length.
Qed.

Lemma tab_ext rows cols f g :
  (∀ r c, (r < rows)%nat → (c < cols)%nat → f r c = g r c) →
  tab rows cols f = tab rows cols g.
Proof.
  intros H. unfold tab. apply list_fmap_ext. intros i r Hi.
  apply lookup_seq in Hi as [-> Hr]. apply list_fmap_ext. intros j c Hj.
  apply lookup_seq in Hj as [-> Hc]. by apply H.
Qed.

Lemma full_tab rows cols (v : A) : full rows cols v = tab rows cols (λ _ _, v).
Proof.
  unfold full, tab.
  assert (∀ (B : Type) (x : B) n j, replicate n x = (λ _, x) <$> seq j n) as Hrep.
  { intros B x n. induction n as [|n IH]; intros j; [done|].
    simpl. f_equal. apply IH. }
  rewrite (Hrep _ _ rows 0%nat). apply list_fmap_ext. intros _ r _.
  apply Hrep.
Qed.
End tab_lemmas.

Lemma amap_tab {A B} (h : A → B) rows cols (f : nat → nat → A) :
  amap h (tab rows cols f) = tab rows cols (λ r c, h (f r c)).
Proof.
  unfold amap, tab. rewrite <-list_fmap_compose. apply list_fmap_ext.
  intros _ r _. simpl. by rewrite <-list_fmap_compose.
Qed.

Lemma zip_with_fmap_same {A B C D} (h : B → C → D) (f : A → B) (g : A → C) (l : list A) :
  zip_with h (f <$> l) (g <$> l) = (λ x, h (f x) (g x)) <$> l.
Proof. induction l as [|x l IH]; [done|]. csimpl. by rewrite IH. Qed.

Lemma amap2_tab {A B C} (h : A → B → C) rows cols
    (f : nat → nat → A) (g : nat → nat → B) :
  amap2 h (tab rows cols f) (tab rows cols g)
  = tab rows cols (λ r c, h (f r c) (g r c)).
Proof.
  unfold amap2, tab.
  rewrite (zip_with_fmap_same (zip_with h) (λ r, f r <$> seq 0 cols)
             (λ r, g r <$> seq 0 cols)).
  apply list_fmap_ext. intros _ r _. apply zip_with_fmap_same.
Qed.

Lemma amap3_tab {A B C D} (h : A → B → C → D) rows cols
    (f : nat → nat → A) (g : nat → nat → B) (k : nat → nat → C) :
  amap3 h (tab rows cols f) (tab rows cols g) (tab rows cols k)
  = tab rows cols (λ r c, h (f r c) (g r c) (k r c)).
Proof. unfold amap3. by rewrite !amap2_tab. Qed.

Lemma mapM_fmap_seq {A B} (g : A → option B) (f : nat → A) (h : nat → B) j n :
  (∀ i, (j ≤ i < j + n)%nat → g (f i) = Some (h i)) →
  mapM g (f <$> seq j n) = Some (h <$> seq j n).
Proof.
  revert j. induction n as [|n IH]; intros j H; [done|].
  simpl. rewrite H by lia. simpl. rewrite IH; [done|]. intros i Hi. apply H. lia.
Qed.

Lemma amapM_tab {A B} (g : A → option B) rows cols
    (f : nat → nat → A) (h : nat → nat → B) :
  (∀ r c, (r < rows)%nat → (c < cols)%nat → g (f r c) = Some (h r c)) →
  amapM g (tab rows cols f) = Some (tab rows cols h).
Proof.
  intros H. unfold amapM, tab.
  apply (mapM_fmap_seq (mapM g) (λ r, f r <$> seq 0 cols) (λ r, h r <$> seq 0 cols)).
  intros r Hr. apply mapM_fmap_seq. intros c Hc. apply H; lia.
Qed.

Lemma wrap_lt n i : (0 < n)%nat → (wrap n i < n)%nat.
Proof.
  intros Hn. unfold wrap.
  pose proof (Z.mod_pos_bound i (Z.of_nat n)). lia.
Qed.

Lemma roll_fmap_seq {A} (f : nat → A) (k : Z) (n : nat) :
  roll k (f <$> seq 0 n) = (λ i, f (wrap n (Z.of_nat i - k))) <$> seq 0 n.
Proof.
  unfold roll. rewrite length_fmap, length_seq.
  destruct (decide (n = 0%nat)) as [->|Hn]; [done|].
  pose proof (Z.mod_pos_bound k (Z.of_nat n) ltac:(lia)) as Hs.
  set (s := Z.to_nat (k mod Z.of_nat n)).
  assert (s < n)%nat as Hsn by lia.
  apply list_eq. intros i.
  destruct (decide (i < n)%nat) as [Hi|Hi].
  2:{ rewrite !lookup_ge_None_2; [done| |].
      - rewrite length_fmap, length_seq; lia.
      - rewrite length_app, length_drop, length_take, length_fmap, length_seq. lia. }
  rewrite (list_lookup_fmap _ (seq 0 n)), lookup_seq_lt by done. simpl.
  assert (wrap n (Z.of_nat i - k) =
          if decide (i < s)%nat then (n - s + i)%nat else (i - s)%nat) as ->.
  { unfold wrap. rewrite <-Zminus_mod_idemp_r.
    replace (k `mod` Z.of_nat n) with (Z.of_nat s) by lia.
    destruct (decide (i < s)%nat).
    - rewrite <-(Z_mod_plus_full _ 1). rewrite Z.mod_small by lia. lia.
    - rewrite Z.mod_small by lia. lia. }
  destruct (decide (i < s)%nat).
  - rewrite lookup_app_l by (rewrite length_drop, length_fmap, length_seq; lia).
    rewrite lookup_drop, list_lookup_fmap, lookup_seq_lt by lia. done.
  - rewrite lookup_app_r by (rewrite length_drop, length_fmap, length_seq; lia).
    rewrite length_drop, length_fmap, length_seq.
    rewrite lookup_take_lt by lia.
    rewrite list_lookup_fmap, lookup_seq_lt by lia. simpl. do 2 f_equal. lia.
Qed.

Lemma roll2_tab {A} (f : nat → nat → A) (di dj : Z) rows cols :
  roll2 di dj (tab rows cols f)
  = tab rows cols (λ r c, f (wrap rows (Z.of_nat r - di)) (wrap cols (Z.of_nat c - dj))).
Proof.
  unfold roll2, tab. rewrite roll_fmap_seq, <-list_fmap_compose.
  apply list_fmap_ext. intros _ r _. simpl. apply roll_fmap_seq.
Qed.

Lemma set2_tab {A} (f : nat → nat → A) rows cols r0 c0 v :
  set2 (tab rows cols f) r0 c0 v
  = tab rows cols (λ r c, if decide (r = r0 ∧ c = c0) then v else f r c).
Proof.
  unfold set2. apply list_eq. intros r.
  destruct (decide (r < rows)%nat) as [Hr|Hr].
  2:{ rewrite !lookup_ge_None_2; [done| |].
      - rewrite tab_length; lia.
      - rewrite length_alter, tab_length; lia. }
  rewrite list_lookup_alter.
  destruct (decide (r0 = r)) as [->|Hne]; rewrite !tab_row by done; simpl; f_equal.
  - apply list_eq. intros c.
    destruct (decide (c < cols)%nat) as [Hc|Hc].
    2:{ rewrite !lookup_ge_None_2; [done| |].
        - rewrite length_fmap, length_seq; lia.
        - rewrite length_insert, length_fmap, length_seq; lia. }
    rewrite list_lookup_insert, length_fmap, length_seq.
    rewrite !list_lookup_fmap, lookup_seq_lt by done. simpl.
    destruct (decide (c0 = c ∧ (c0 < cols)%nat)) as [[-> _]|Hn].
    + by rewrite decide_True.
    + rewrite decide_False; [done|]. intros [_ ->]. apply Hn. done.
  - apply list_fmap_ext. intros _ c _. rewrite decide_False; [done|].
    intros [-> _]. done.
Qed.

Lemma rect_tab (grid : list (list Z)) :
  rect grid → grid = tab (nrows grid) (ncols grid) (cell grid).
Proof.
  intros Hrect. apply list_eq. intros r. unfold nrows.
  destruct (decide (r < length grid)%nat) as [Hr|Hr].
  2:{ rewrite !lookup_ge_None_2; [done| |]; [rewrite tab_length|]; lia. }
  rewrite tab_row by done.
  destruct (lookup_lt_is_Some_2 grid r Hr) as [row Hrow]. rewrite Hrow. f_equal.
  pose proof (Forall_lookup_1 _ _ _ _ Hrect Hrow) as Hlen. simpl in Hlen.
  apply list_eq. intros c.
  destruct (decide (c < ncols grid)%nat) as [Hc|Hc].
  2:{ rewrite !lookup_ge_None_2; [done| |]; [rewrite length_fmap, length_seq|]; lia. }
  rewrite list_lookup_fmap, lookup_seq_lt by done. simpl.
  unfold cell, at2. rewrite Hrow. simpl.
  destruct (lookup_lt_is_Some_2 row c) as [g Hg]; [lia|]. by rewrite Hg.
Qed.

(** * The weighted vote, lines 55-84 *)

Lemma np_index_Some {A} (l : list A) i x : np_index l i = Some x → x ∈ l.
Proof.
  unfold np_index. repeat case_bool_decide; try done.
  all: intros Hx; apply list_elem_of_lookup; eauto.
Qed.

Lemma np_index_is_Some {A} (l : list A) i :
  - Z.of_nat (length l) <= i < Z.of_nat (length l) → is_Some (np_index l i).
Proof.
  intros Hi. unfold np_index. repeat case_bool_decide; try lia.
  all: apply lookup_lt_is_Some_2; lia.
Qed.

Lemma weights_in02 : Forall in02 weights.
Proof.
  unfold weights. simpl.
  repeat (apply Forall_cons; split; [unfold in02; simpl; lia|]).
  apply Forall_nil_2.
Qed.

Lemma wt_in02 s : in02 (wt s).
Proof.
  unfold wt. destruct (weights_at s) as [w|] eqn:Hw; simpl.
  - apply np_index_Some in Hw. revert w Hw. apply Forall_forall, weights_in02.
  - unfold in02; simpl; lia.
Qed.

Lemma weights_at_wt s : -21 <= s <= 20 → weights_at s = Some (wt s).
Proof.
  intros Hs. unfold wt.
  destruct (np_index_is_Some weights s) as [w Hw]; [simpl; lia|].
  unfold weights_at. by rewrite Hw.
Qed.

Lemma lookup_at_lk w : in02 w → lookup_at w = Some (lk w).
Proof.
  destruct w as [[a b] c]. unfold in02; simpl. intros (Ha & Hb & Hc).
  assert (a = 0 ∨ a = 1 ∨ a = 2) as Ha' by lia.
  assert (b = 0 ∨ b = 1 ∨ b = 2) as Hb' by lia.
  assert (c = 0 ∨ c = 1 ∨ c = 2) as Hc' by lia.
  destruct Ha' as [->|[->| ->]], Hb' as [->|[->| ->]], Hc' as [->|[->| ->]];
    reflexivity.
Qed.

Lemma cell_indexable grid r c : indexable grid → -21 <= cell grid r c <= 20.
Proof.
  intros HG. unfold cell, at2.
  destruct (grid !! r) as [row|] eqn:Hrow; simpl; [|lia].
  destruct (row !! c) as [g|] eqn:Hg; simpl; [|lia].
  pose proof (Forall_lookup_1 _ _ _ _ HG Hrow) as Hr.
  apply (Forall_lookup_1 _ _ _ _ Hr Hg).
Qed.

Lemma where3_tab {A} d rows cols (a b c : nat → nat → A) :
  where3 d (tab rows cols a) (tab rows cols b) (tab rows cols c)
  = tab rows cols (λ r k, where3 d (a r k) (b r k) (c r k)).
Proof. unfold where3. by repeat case_match. Qed.

Lemma weights_tab rows cols (F : nat → nat → Z) :
  (∀ r c, -21 <= F r c <= 20) →
  amapM weights_at (tab rows cols F) = Some (tab rows cols (λ r c, wt (F r c))).
Proof. intros HF. apply amapM_tab. intros. by apply weights_at_wt. Qed.

Section vote.
Variables (rows cols : nat) (F : nat → nat → Z).
Hypothesis F_ok : ∀ r c, -21 <= F r c <= 20.

Let W r c := wt (F r c).
Let R r c (di dj : Z) := F (wrap rows (Z.of_nat r - di)) (wrap cols (Z.of_nat c - dj)).

Lemma cell_weights_tab :
  amapM weights_at (tab rows cols F) = Some (tab rows cols W).
Proof. apply amapM_tab. intros. by apply weights_at_wt. Qed.

Lemma coeffs_of_tab :
  coeffs_of (tab rows cols W)
  = (λ '(di, dj), tab rows cols (λ r c, coeff (W r c) di dj)) <$> offsets.
Proof.
  unfold coeffs_of. rewrite !amap_tab. apply list_fmap_ext.
  intros _ [di dj] _. rewrite !where3_tab, amap2_tab. apply tab_ext.
  intros r c _ _. unfold coeff. destruct (W r c) as [[a b] k]. done.
Qed.

Lemma total_filter_tab :
  sum_axis0 rows cols
    ((λ '(di, dj), tab rows cols (λ r c, coeff (W r c) di dj)) <$> offsets)
  = tab rows cols
      (λ r c, foldl Z.add 0 ((λ '(di, dj), coeff (W r c) di dj) <$> offsets)).
Proof.
  unfold sum_axis0. rewrite full_tab. simpl. by rewrite !amap2_tab.
Qed.

Lemma weighted_sum_tab grid :
  grid = tab rows cols F →
  weighted_sum_of grid rows cols
    ((λ '(di, dj), tab rows cols (λ r c, coeff (W r c) di dj)) <$> offsets)
  = Some (tab rows cols
      (λ r c, tsum ((λ '(di, dj), tscale (coeff (W r c) di dj) (wt (R r c di dj)))
                    <$> offsets))).
Proof.
  intros ->. unfold weighted_sum_of. rewrite full_tab. simpl.
  rewrite !roll2_tab.
  repeat (rewrite weights_tab by (intros; apply F_ok);
          simpl; rewrite !amap2_tab).
  done.
Qed.
End vote.

Lemma vote_tab grid rows cols (F : nat → nat → Z) :
  (∀ r c, -21 <= F r c <= 20) →
  length grid = rows → length (default [] (head grid)) = cols →
  grid = tab rows cols F →
  vote grid = Some (VoteLocals
    (tab rows cols (λ r c, wt (F r c)))
    ((λ '(di, dj), tab rows cols (λ r c, coeff (wt (F r c)) di dj)) <$> offsets)
    (tab rows cols
       (λ r c, foldl Z.add 0 ((λ '(di, dj), coeff (wt (F r c)) di dj) <$> offsets)))
    (tab rows cols
       (λ r c, tsum ((λ '(di, dj),
          tscale (coeff (wt (F r c)) di dj)
                 (wt (F (wrap rows (Z.of_nat r - di)) (wrap cols (Z.of_nat c - dj)))))
          <$> offsets)))
    (tab rows cols
       (λ r c,
          let tf := foldl Z.add 0 ((λ '(di, dj), coeff (wt (F r c)) di dj) <$> offsets) in
          if negb (tf =? 0)
          then tmap (λ p, rint_div p tf)
                 (tsum ((λ '(di, dj),
                    tscale (coeff (wt (F r c)) di dj)
                      (wt (F (wrap rows (Z.of_nat r - di)) (wrap cols (Z.of_nat c - dj)))))
                    <$> offsets))
          else wt (F r c)))).
Proof.
  intros HF Hrows Hcols HG. unfold vote. rewrite Hrows, Hcols.
  pose proof (cell_weights_tab rows cols F HF) as Hcw. rewrite <-HG in Hcw.
  rewrite Hcw. simpl.
  rewrite (coeffs_of_tab rows cols F), (total_filter_tab rows cols F).
  rewrite (weighted_sum_tab rows cols F HF grid HG). simpl.
  unfold new_components_of. rewrite amap3_tab. done.
Qed.

(** the vote of a rectangular, indexable grid, array by array *)
Lemma vote_spec grid :
  rect grid → indexable grid →
  ∃ v, vote grid = Some v
    ∧ cell_weights v = tab (nrows grid) (ncols grid) (λ r c, wt (cell grid r c))
    ∧ total_filter v = tab (nrows grid) (ncols grid) (cell_total_filter grid)
    ∧ weighted_sum v = tab (nrows grid) (ncols grid) (cell_weighted_sum grid)
    ∧ new_components v = tab (nrows grid) (ncols grid) (cell_new_components grid).
Proof.
  intros Hrect Hidx.
  pose proof (vote_tab grid (nrows grid) (ncols grid) (cell grid)
                (λ r c, cell_indexable grid r c Hidx) eq_refl eq_refl
                (rect_tab grid Hrect)) as Hv.
  eexists. split; [exact Hv|]. simpl. done.
Qed.

(** ** Ranges *)

Lemma rint_div_bounds p q : 0 < q → 0 <= p <= 2 * q → 0 <= rint_div p q <= 2.
Proof.
  intros Hq Hp. unfold rint_div.
  pose proof (Z.div_mod p q ltac:(lia)) as Hdm.
  pose proof (Z.mod_pos_bound p q Hq) as Hm.
  assert (0 <= p / q <= 2) as Hk.
  { split; [apply Z.div_pos; lia|]. apply Z.div_le_upper_bound; lia. }
  repeat case_match; try lia.
  all: assert ((p / q) ≠ 2) by (intros Heq; rewrite Heq in Hdm; lia); lia.
Qed.

Lemma rint_div_exact q m : 0 < q → rint_div (q * m) q = m.
Proof.
  intros Hq. unfold rint_div.
  rewrite (Z.mul_comm q m), Z.div_mul, Z.mod_mul by lia.
  assert ((2 * 0 <? q) = true) as -> by lia. done.
Qed.

Lemma wsum_bounds (l : list (Z * triple)) (t : Z) (s : triple) :
  Forall (λ kw, 0 <= kw.1 ∧ in02 kw.2) l →
  0 <= t → (0 <= s.1.1 <= 2 * t) ∧ (0 <= s.1.2 <= 2 * t) ∧ (0 <= s.2 <= 2 * t) →
  let t' := foldl Z.add t (fst <$> l) in
  let s' := foldl tadd s ((λ kw, tscale kw.1 kw.2) <$> l) in
  0 <= t' ∧ (0 <= s'.1.1 <= 2 * t') ∧ (0 <= s'.1.2 <= 2 * t') ∧ (0 <= s'.2 <= 2 * t').
Proof.
  revert t s. induction l as [|[k [[w0 w1] w2]] l IH]; intros t [[s0 s1] s2] Hl Ht Hs.
  { simpl in *. lia. }
  apply Forall_cons in Hl as [[Hk Hw] Hl]. unfold in02 in Hw. simpl in *.
  apply IH; [done|lia|]. simpl. nia.
Qed.

Lemma coeff_nonneg w di dj : in02 w → 0 <= coeff w di dj.
Proof.
  destruct w as [[a b] c]. unfold in02, coeff, where3. simpl. intros.
  repeat case_match; nia.
Qed.

Lemma cell_vote_bounds grid r c :
  let tf := cell_total_filter grid r c in
  let ws := cell_weighted_sum grid r c in
  0 <= tf ∧ (0 <= ws.1.1 <= 2 * tf) ∧ (0 <= ws.1.2 <= 2 * tf) ∧ (0 <= ws.2 <= 2 * tf).
Proof.
  unfold cell_total_filter, cell_weighted_sum, tsum.
  pose proof (wsum_bounds
    ((λ '(di, dj), (coeff (wt (cell grid r c)) di dj, wt (rolled_cell grid r c di dj)))
       <$> offsets) 0 (0, 0, 0)) as H.
  rewrite <-!list_fmap_compose in H.
  apply H; [|lia|simpl; lia].
  apply Forall_fmap, Forall_forall. intros [di dj] _. simpl.
  split; [apply coeff_nonneg|]; apply wt_in02.
Qed.

Lemma cell_new_components_in02 grid r c : in02 (cell_new_components grid r c).
Proof.
  unfold cell_new_components.
  pose proof (cell_vote_bounds grid r c) as (Htf & H0 & H1 & H2).
  destruct (Z.eqb_spec (cell_total_filter grid r c) 0) as [Hz|Hnz]; simpl.
  { apply wt_in02. }
  destruct (cell_weighted_sum grid r c) as [[s0 s1] s2]. simpl in *.
  unfold in02; simpl. repeat split; apply rint_div_bounds; lia.
Qed.

Lemma twist_in02 w : in02 (twist_of w).
Proof.
  destruct w as [[a b] c]. unfold in02, twist_of, tmap; simpl.
  pose proof (Z.mod_pos_bound (a + 1) 3). pose proof (Z.mod_pos_bound (b + 1) 3).
  pose proof (Z.mod_pos_bound (c + 1) 3). lia.
Qed.

Lemma lk_range w : in02 w → -1 <= lk w <= 20.
Proof.
  destruct w as [[a b] c]. unfold in02; simpl. intros (Ha & Hb & Hc).
  assert (a = 0 ∨ a = 1 ∨ a = 2) as Ha' by lia.
  assert (b = 0 ∨ b = 1 ∨ b = 2) as Hb' by lia.
  assert (c = 0 ∨ c = 1 ∨ c = 2) as Hc' by lia.
  destruct Ha' as [->|[->| ->]], Hb' as [->|[->| ->]], Hc' as [->|[->| ->]];
    vm_compute; split; discriminate.
Qed.

(** ** Lines 86-96 *)

Lemma finish_tab grid rows cols (F : nat → nat → Z) (N : nat → nat → triple) rng :
  (∀ r c, in02 (N r c)) →
  length grid = rows → length (default [] (head grid)) = cols →
  grid = tab rows cols F →
  finish grid (tab rows cols N) rng
  = foldM (nill_step grid rows cols)
          (tab rows cols (λ r c, masked (F r c) (N r c)), rng)
          (argwhere_eq NILL_IDX grid).
Proof.
  intros HN Hrows Hcols HG. unfold finish. rewrite Hrows, Hcols.
  rewrite (amapM_tab lookup_at rows cols N (λ r c, lk (N r c)))
    by (intros; apply lookup_at_lk, HN).
  simpl. rewrite HG at 1 2. rewrite amap2_tab, amap3_tab.
  rewrite (amapM_tab _ rows cols _ (λ r c, masked (F r c) (N r c))); [done|].
  intros r c _ _. simpl. unfold masked.
  destruct (F r c =? NA_IDX); [|done].
  apply lookup_at_lk, twist_in02.
Qed.

(** ** The Nill loop *)

Lemma elem_of_argwhere_eq v (grid : list (list Z)) r c :
  (r, c) ∈ argwhere_eq v grid ↔ at2 grid r c = Some v.
Proof.
  unfold argwhere_eq, at2. rewrite list_elem_of_join. split.
  - intros (l & Hrc & Hl). apply list_elem_of_lookup in Hl as [i Hi].
    rewrite list_lookup_imap in Hi.
    destruct (grid !! i) as [row|] eqn:Hrow; [|done]. simpl in Hi.
    injection Hi as <-. apply list_elem_of_omap in Hrc as (p & Hp & ->).
    apply list_elem_of_lookup in Hp as [j Hj]. rewrite list_lookup_imap in Hj.
    destruct (row !! j) as [g|] eqn:Hg; [|done]. simpl in Hj.
    destruct (Z.eqb_spec g v) as [->|]; [|done]. injection Hj as <- <-.
    rewrite Hrow. simpl. done.
  - intros H. destruct (grid !! r) as [row|] eqn:Hrow; [|done]. simpl in H.
    eexists. split.
    2:{ apply list_elem_of_lookup. exists r. rewrite list_lookup_imap, Hrow. done. }
    apply list_elem_of_omap. exists (Some (r, c)). split; [|done].
    apply list_elem_of_lookup. exists c. rewrite list_lookup_imap, H. simpl.
    by rewrite Z.eqb_refl.
Qed.

Lemma choices_of_tab rows cols F y x :
  (y < rows)%nat → (x < cols)%nat →
  choices_of (tab rows cols F) rows cols y x = Some (cell_choices rows cols F y x).
Proof.
  intros Hy Hx. unfold choices_of, cell_choices.
  rewrite (proj2 (mapM_Some _ _
    ((λ '(di, dj), F (wrap rows (Z.of_nat y + di)) (wrap cols (Z.of_nat x + dj)))
       <$> offsets))); [done|].
  apply Forall2_fmap_r, Forall_Forall2_diag, Forall_forall.
  intros [di dj] _. apply tab_lookup; apply wrap_lt; lia.
Qed.

Lemma wrap_id n i : (i < n)%nat → wrap n (Z.of_nat i + 0) = i.
Proof. intros Hi. unfold wrap. rewrite Z.add_0_r, Z.mod_small by lia. lia. Qed.

Lemma cell_choices_self rows cols F y x :
  (y < rows)%nat → (x < cols)%nat → F y x ≠ NULL_IDX →
  F y x ∈ cell_choices rows cols F y x.
Proof.
  intros Hy Hx Hnn. unfold cell_choices. apply list_elem_of_filter. split; [done|].
  apply list_elem_of_fmap. exists (0, 0). rewrite !wrap_id by done. split; [done|].
  unfold offsets. do 4 right. left.
Qed.

Lemma random_choice_elem {A} (rng : rng_state) (seq : list A) :
  seq ≠ [] →
  ∃ v, random_choice rng seq = Some (v, λ k, rng (S k)) ∧ v ∈ seq
     ∧ seq !! (rng 0%nat mod length seq)%nat = Some v.
Proof.
  intros Hne. unfold random_choice.
  destruct (lookup_lt_is_Some_2 seq (rng 0%nat mod length seq)%nat) as [v Hv].
  { apply Nat.mod_upper_bound. by destruct seq. }
  exists v. rewrite Hv. simpl. split; [done|]. split; [|done].
  apply list_elem_of_lookup. eauto.
Qed.

Lemma nill_loop_tab rows cols (F : nat → nat → Z) L :
  ∀ (M : nat → nat → Z) rng,
  (∀ y x, (y, x) ∈ L → (y < rows)%nat ∧ (x < cols)%nat ∧ F y x ≠ NULL_IDX) →
  ∃ M' rng',
    foldM (nill_step (tab rows cols F) rows cols) (tab rows cols M, rng) L
    = Some (tab rows cols M', rng')
    ∧ (∀ r c, (r, c) ∉ L → M' r c = M r c)
    ∧ (∀ r c, (r, c) ∈ L → M' r c ∈ cell_choices rows cols F r c).
Proof.
  induction L as [|[y x] L IH]; intros M rng HL.
  { exists M, rng. split; [done|]. split; [done|]. intros r c H. by apply elem_of_nil in H. }
  destruct (HL y x) as (Hy & Hx & Hnn); [left|].
  simpl. rewrite choices_of_tab by done. simpl.
  pose proof (cell_choices_self rows cols F y x Hy Hx Hnn) as Hself.
  destruct (cell_choices rows cols F y x) as [|g0 ch] eqn:Hch.
  { by apply elem_of_nil in Hself. }
  destruct (random_choice_elem rng (g0 :: ch)) as (v & Hrc & Hv & _); [done|].
  rewrite Hrc. simpl. rewrite set2_tab.
  destruct (IH (λ r c, if decide (r = y ∧ c = x) then v else M r c) (λ k, rng (S k)))
    as (M' & rng' & Hfold & Hout & Hin).
  { intros y' x' H'. apply HL. by right. }
  exists M', rng'. split; [done|]. split.
  - intros r c Hn. apply not_elem_of_cons in Hn as [Hne Hn].
    rewrite Hout by done. rewrite decide_False; [done|]. intros [-> ->]. done.
  - intros r c Hrcin. destruct (decide ((r, c) ∈ L)) as [HinL|HninL].
    + by apply Hin.
    + apply elem_of_cons in Hrcin as [Heq|?]; [|done]. injection Heq as -> ->.
      rewrite Hout by done. rewrite decide_True by done. by rewrite Hch.
Qed.

(** ** One generation, cell by cell *)

Lemma update_grid_spec grid rng :
  rect grid → indexable grid →
  ∃ M' rng',
    update_grid grid rng = Some (tab (nrows grid) (ncols grid) M', rng')
    ∧ (∀ r c, (r < nrows grid)%nat → (c < ncols grid)%nat →
         cell grid r c ≠ NILL_IDX →
         M' r c = masked (cell grid r c) (cell_new_components grid r c))
    ∧ (∀ r c, (r < nrows grid)%nat → (c < ncols grid)%nat →
         cell grid r c = NILL_IDX →
         M' r c ∈ cell_choices (nrows grid) (ncols grid) (cell grid) r c).
Proof.
  intros Hrect Hidx.
  destruct (vote_spec grid Hrect Hidx) as (v & Hv & _ & _ & _ & Hnc).
  unfold update_grid. rewrite Hv. simpl. rewrite Hnc.
  pose proof (rect_tab grid Hrect) as HG.
  rewrite (finish_tab grid (nrows grid) (ncols grid) (cell grid))
    by (done || apply cell_new_components_in02).
  assert (∀ y x, (y, x) ∈ argwhere_eq NILL_IDX grid →
            (y < nrows grid)%nat ∧ (x < ncols grid)%nat ∧ cell grid y x = NILL_IDX)
    as HL.
  { intros y x H. apply elem_of_argwhere_eq in H.
    assert (y < nrows grid)%nat as Hy.
    { unfold at2 in H. destruct (grid !! y) eqn:E; [|done].
      apply lookup_lt_Some in E. done. }
    assert (x < ncols grid)%nat as Hx.
    { unfold at2 in H. destruct (grid !! y) as [row|] eqn:E; [|done]. simpl in H.
      apply lookup_lt_Some in H.
      pose proof (Forall_lookup_1 _ _ _ _ Hrect E) as Hlen. simpl in Hlen. lia. }
    split; [done|]. split; [done|]. unfold cell. by rewrite H. }
  set (L := argwhere_eq NILL_IDX grid) in *.
  set (M := λ r c, masked (cell grid r c) (cell_new_components grid r c)).
  destruct (nill_loop_tab (nrows grid) (ncols grid) (cell grid) L M rng)
    as (M' & rng' & Hfold & Hout & Hin).
  { intros y x H. destruct (HL y x H) as (? & ? & Hc). rewrite Hc. done. }
  rewrite <-HG in Hfold. exists M', rng'. split; [exact Hfold|]. split.
  - intros r c Hr Hc Hnn. apply Hout. intros H. apply HL in H as (_ & _ & ?). done.
  - intros r c Hr Hc Hn. apply Hin. apply elem_of_argwhere_eq.
    rewrite HG. rewrite tab_lookup by done. by rewrite Hn.
Qed.

(** ** Facts about the two tables *)

Lemma Z_interval_cases (P : Z → Prop) `{!∀ g, Decision (P g)} (lo : Z) (n : nat) :
  bool_decide (Forall P (seqZ lo (Z.of_nat n))) = true →
  ∀ g, lo <= g < lo + Z.of_nat n → P g.
Proof.
  intros Hall g Hg. apply bool_decide_eq_true_1 in Hall.
  apply (proj1 (Forall_forall _ _) Hall). apply elem_of_seqZ. lia.
Qed.

Lemma lk_wt g : 0 <= g <= 20 → lk (wt g) = g.
Proof.
  intros Hg. apply (Z_interval_cases (λ g, lk (wt g) = g) 0 21); [|lia].
  vm_compute. reflexivity.
Qed.

Lemma wt_zero_iff g : -1 <= g <= 20 → wt g = (0, 0, 0) ↔ g = NULL_IDX.
Proof.
  intros Hg.
  apply (Z_interval_cases (λ g, wt g = (0, 0, 0) ↔ g = NULL_IDX) (-1) 22); [|lia].
  vm_compute. reflexivity.
Qed.

Lemma total_filter_square w :
  foldl Z.add 0 ((λ '(di, dj), coeff w di dj) <$> offsets)
  = (w.1.1 + w.1.2 + w.2) ^ 2.
Proof. destruct w as [[a b] k]. unfold coeff, where3. simpl. ring. Qed.

Lemma uniform_sum w u :
  tsum ((λ '(di, dj), tscale (coeff w di dj) u) <$> offsets)
  = tscale ((w.1.1 + w.1.2 + w.2) ^ 2) u.
Proof.
  destruct w as [[a b] k], u as [[u0 u1] u2].
  unfold tsum, coeff, where3, tscale, tadd. simpl. f_equal; [f_equal|]; ring.
Qed.

Lemma emitted_indexable grid : emitted grid → indexable grid.
Proof.
  unfold emitted, indexable. intros H.
  eapply Forall_impl; [exact H|]. intros row Hrow.
  eapply Forall_impl; [exact Hrow|]. simpl. lia.
Qed.

Lemma valid_emitted grid : valid grid → emitted grid.
Proof.
  unfold emitted, valid. intros H.
  eapply Forall_impl; [exact H|]. intros row Hrow.
  eapply Forall_impl; [exact Hrow|]. simpl. lia.
Qed.

Lemma cell_emitted grid r c : emitted grid → -1 <= cell grid r c <= 20.
Proof.
  intros HG. unfold cell, at2.
  destruct (grid !! r) as [row|] eqn:Hrow; simpl; [|lia].
  destruct (row !! c) as [g|] eqn:Hg; simpl; [|lia].
  pose proof (Forall_lookup_1 _ _ _ _ HG Hrow) as Hr.
  apply (Forall_lookup_1 _ _ _ _ Hr Hg).
Qed.

Lemma at2_cell grid r c g :
  rect grid → at2 grid r c = Some g →
  (r < nrows grid)%nat ∧ (c < ncols grid)%nat ∧ cell grid r c = g.
Proof.
  intros Hrect H. unfold cell. rewrite H. split; [|split; [|done]].
  - unfold at2 in H. destruct (grid !! r) eqn:E; [|done].
    by apply lookup_lt_Some in E.
  - unfold at2 in H. destruct (grid !! r) as [row|] eqn:E; [|done]. simpl in H.
    apply lookup_lt_Some in H.
    pose proof (Forall_lookup_1 _ _ _ _ Hrect E) as Hlen. simpl in Hlen. lia.
Qed.

Lemma cell_at2 grid r c :
  rect grid → (r < nrows grid)%nat → (c < ncols grid)%nat →
  at2 grid r c = Some (cell grid r c).
Proof.
  intros Hrect Hr Hc. rewrite (rect_tab grid Hrect) at 1. by apply tab_lookup.
Qed.

Lemma tab_shape {A} rows cols (f : nat → nat → A) :
  Forall (λ row, length row = cols) (tab rows cols f).
Proof.
  unfold tab. apply Forall_fmap, Forall_forall. intros r _. simpl.
  by rewrite length_fmap, length_seq.
Qed.

Lemma tab_Forall {A} (P : A → Prop) rows cols (f : nat → nat → A) :
  (∀ r c, (r < rows)%nat → (c < cols)%nat → P (f r c)) →
  Forall (Forall P) (tab rows cols f).
Proof.
  intros H. unfold tab. apply Forall_fmap, Forall_forall. intros r Hr. simpl.
  apply elem_of_seq in Hr.
  apply Forall_fmap, Forall_forall. intros c Hc. simpl. apply elem_of_seq in Hc.
  apply H; lia.
Qed.

Lemma masked_range g nc : -1 <= g <= 20 → in02 nc → -1 <= masked g nc <= 20.
Proof.
  intros Hg Hnc. unfold masked. repeat case_match; try lia.
  - apply lk_range, twist_in02.
  - by apply lk_range.
Qed.

Lemma cell_choices_range grid y x v :
  emitted grid →
  v ∈ cell_choices (nrows grid) (ncols grid) (cell grid) y x → -1 <= v <= 20.
Proof.
  intros HG Hv. unfold cell_choices in Hv.
  apply list_elem_of_filter in Hv as [_ Hv].
  apply list_elem_of_fmap in Hv as ([di dj] & -> & _). by apply cell_emitted.
Qed.

(** the states a call can write: a rectangular grid over [-1, 20] steps to a
    grid of the same shape over [-1, 20] *)
Lemma update_grid_closed grid rng :
  rect grid → emitted grid →
  ∃ grid' rng',
    update_grid grid rng = Some (grid', rng')
    ∧ length grid' = length grid
    ∧ Forall (λ row, length row = ncols grid) grid'
    ∧ emitted grid'.
Proof.
  intros Hrect Hem.
  destruct (update_grid_spec grid rng Hrect (emitted_indexable _ Hem))
    as (M' & rng' & Hrun & Hdet & Hnill).
  eexists _, rng'. split; [exact Hrun|]. split; [apply tab_length|].
  split; [apply tab_shape|]. apply tab_Forall. intros r c Hr Hc.
  destruct (decide (cell grid r c = NILL_IDX)) as [Hn|Hn].
  - eapply cell_choices_range; [done|]. by apply Hnill.
  - rewrite Hdet by done.
    apply masked_range; [by apply cell_emitted|apply cell_new_components_in02].
Qed.

(** * The properties of one step *)

(** [rint_div] is the binary64 computation: for every divisor q in [1, 36]
    and every dividend p in [0, 2 q], dividing in binary64 and rounding to
    the nearest integer, ties to even, gives [rint_div p q]. *)
Lemma rint_div_float :
  Forall (λ q, Forall (λ p, rint_agrees p q = true) (seqZ 0 (2 * q + 1))) (seqZ 1 36).
Proof.
  apply (bool_decide_eq_true_1
    (Forall (λ q, Forall (λ p, rint_agrees p q = true) (seqZ 0 (2 * q + 1))) (seqZ 1 36))).
  vm_compute. reflexivity.
Qed.

(** C1.  Claim: a grid whose entries are all in [0, 20] steps to a grid of
    the same dimensions whose entries are all in [0, 20].  The code breaks
    the range: in the 1 x 2 grid Yellow, Mustard the vote of the Yellow cell
    is (1.5, 1.5, 0.5), rounded half-to-even to (2, 2, 0), a triple no state
    carries, and the [-1] that [lookup] holds there is written into the
    result, for every random source.  ([update_grid_closed] gives what does
    hold: same shape, entries in [-1, 20].) *)
Theorem step_emits_unused_slot :
  valid yellow_mustard ∧ ∀ rng, step yellow_mustard rng = Some [[-1; 16]].
Proof.
  split.
  - repeat constructor; lia.
  - intros rng. reflexivity.
Qed.

(** C2.  Claim: a Nill cell draws its next state from the non-Null states of
    its 8 neighbours, so with exactly one non-Null neighbour Y it becomes Y
    on every draw.  The loop of line 101 runs over all nine offsets, (0, 0)
    included, so the Nill cell itself is always among the choices: with the
    single non-Null neighbour Red the choices are [Nill; Red], and the draw
    of index 0 leaves the cell Nill. *)
Theorem nill_keeps_itself_among_choices :
  choices_of lone_red 3 3 1 1 = Some [19; 0]
  ∧ ∃ grid', step lone_red (λ _, 0%nat) = Some grid' ∧ at2 grid' 1 1 = Some NILL_IDX.
Proof. split; [reflexivity|]. eexists. split; reflexivity. Qed.

(** C3.  Claim: the coefficient of offset (di, dj) multiplies the weight of
    the cell at ((r + di) mod rows, (c + dj) mod cols).  [np.roll] with
    [shift=di] brings the cell at (r - di, c - dj) instead: on the all-Red
    3 x 3 grid with Blue in the corner (2, 2), the centre's only non-zero
    coefficient is that of offset (-1, -1); the code's weighted sum there is
    Blue's weight (0, 0, 1), while the sum as the claim words it
    ([spec_weighted_sum]) is Red's weight (1, 0, 0). *)
Theorem weighted_sum_mirrors_offsets :
  ∃ v, vote blue_corner = Some v
    ∧ at2 (weighted_sum v) 1 1 = Some (0, 0, 1)
    ∧ spec_weighted_sum blue_corner 1 1 = (1, 0, 0).
Proof. eexists. split; [reflexivity|]. split; reflexivity. Qed.

(** C4, as stated, fails: after one step of the all-Red 3 x 3 grid with a
    Blue centre, the 8 border cells are not all Red, whatever the random
    source. *)
Lemma red_blue_border_changes :
  ¬ ∃ rng grid',
      step red_blue rng = Some grid'
      ∧ Forall (λ p, at2 grid' p.1 p.2 = Some 0) border3.
Proof.
  intros (rng & grid' & Hstep & Hb).
  assert (step red_blue rng = Some [[10; 0; 0]; [0; 0; 0]; [0; 0; 0]]) as Hrun
    by reflexivity.
  rewrite Hrun in Hstep. injection Hstep as <-.
  apply Forall_cons in Hb as [Hb _]. discriminate Hb.
Qed.

(** C4, amended.  On the all-Red 3 x 3 grid with a Blue centre, for every
    random source: at the centre [total_filter] is 1 and the weighted sum
    is (1, 0, 0), so the rounded weighted average is (1, 0, 0); the centre
    steps to [lookup] at that triple, which is Red; of the 8 border cells
    exactly one, a corner, steps to Blue and the other 7 stay Red. *)
Theorem red_blue_step rng :
  ∃ v grid',
    vote red_blue = Some v
    ∧ at2 (total_filter v) 1 1 = Some 1
    ∧ at2 (weighted_sum v) 1 1 = Some (1, 0, 0)
    ∧ at2 (new_components v) 1 1 = Some (1, 0, 0)
    ∧ step red_blue rng = Some grid'
    ∧ at2 grid' 1 1 = lookup_at (1, 0, 0)
    ∧ at2 grid' 1 1 = Some 0
    ∧ ∃ p, p ∈ corners3
        ∧ Forall (λ q, at2 grid' q.1 q.2 = Some (if decide (q = p) then 10 else 0))
                 border3.
Proof.
  eexists _, _. do 7 (split; [reflexivity|]).
  exists (0, 0)%nat. split; [left|]. repeat constructor.
Qed.

(** C5.  On every rectangular grid that [weights] can index, [update_grid]
    returns, and every cell that held Null (18) holds Null in the result,
    whatever its neighbours and whatever the random source. *)
Theorem null_absorbing grid rng :
  rect grid → indexable grid →
  ∃ grid' rng',
    update_grid grid rng = Some (grid', rng')
    ∧ ∀ r c, at2 grid r c = Some NULL_IDX → at2 grid' r c = Some NULL_IDX.
Proof.
  intros Hrect Hidx.
  destruct (update_grid_spec grid rng Hrect Hidx) as (M' & rng' & Hrun & Hdet & _).
  eexists _, rng'. split; [exact Hrun|]. intros r c Hrc.
  apply at2_cell in Hrc as (Hr & Hc & Hg); [|done].
  rewrite tab_lookup by done. rewrite Hdet by (done || by rewrite Hg).
  by rewrite Hg.
Qed.

Lemma null_absorbing_witness :
  ∃ grid' rng',
    update_grid [[18; 19]; [0; 20]] (λ _, 0%nat) = Some (grid', rng')
    ∧ ∀ r c, at2 [[18; 19]; [0; 20]] r c = Some NULL_IDX →
             at2 grid' r c = Some NULL_IDX.
Proof.
  apply null_absorbing.
  - repeat constructor.
  - repeat constructor; lia.
Defined.

Lemma lookup_weights Y w : 0 <= Y <= 20 → weights_at Y = Some w → lookup_at w = Some Y.
Proof.
  intros HY Hw. rewrite weights_at_wt in Hw by lia. injection Hw as <-.
  rewrite lookup_at_lk by apply wt_in02. by rewrite lk_wt.
Qed.

Lemma wrap_sub_0 n i : (i < n)%nat → wrap n (Z.of_nat i - 0) = i.
Proof. intros Hi. unfold wrap. rewrite Z.sub_0_r, Z.mod_small by lia. lia. Qed.

Lemma rolled_cell_self grid r c :
  (r < nrows grid)%nat → (c < ncols grid)%nat → rolled_cell grid r c 0 0 = cell grid r c.
Proof. intros Hr Hc. unfold rolled_cell. by rewrite !wrap_sub_0. Qed.

Lemma offsets_neg di dj : (di, dj) ∈ offsets → (- di, - dj) ∈ offsets.
Proof.
  unfold offsets. rewrite !elem_of_cons, elem_of_nil.
  intros [H|[H|[H|[H|[H|[H|[H|[H|[H|[]]]]]]]]]]; injection H as -> ->; simpl; tauto.
Qed.

(** the entries the nine rolled grids put on a cell are those of its 3x3
    block *)
Lemma rolled_cell_neighbour grid r c di dj :
  rolled_cell grid r c di dj
  = cell grid (wrap (nrows grid) (Z.of_nat r + - di))
              (wrap (ncols grid) (Z.of_nat c + - dj)).
Proof. unfold rolled_cell. by rewrite !Z.add_opp_r. Qed.

Lemma rint_div_9 a : 0 <= a <= 2 → rint_div (8 * a + 1) 9 = a.
Proof.
  intros Ha. assert (a = 0 ∨ a = 1 ∨ a = 2) as [->|[->| ->]] by lia; reflexivity.
Qed.

(** C6.  For a cell holding N/A (20): its nine coefficients are all 1, so
    [total_filter] is 9 there and [new_components] is the rounded ninth of
    the weighted sum; the cell's next state is [lookup] at the twisted
    triple, [twisted[k] = (new_components[k] + 1) mod 3].  If moreover the 8
    toroidal neighbours all hold one state X of weight (a, b, k), then
    [new_components] is (a, b, k), the next state is [lookup] at
    ((a+1) mod 3, (b+1) mod 3, (k+1) mod 3), and it is the state Y whenever
    a state Y carries that triple. *)
Theorem na_twist grid rng r c :
  rect grid → indexable grid → at2 grid r c = Some NA_IDX →
  ∃ v ws nc grid' rng',
    vote grid = Some v
    ∧ at2 (total_filter v) r c = Some 9
    ∧ at2 (weighted_sum v) r c = Some ws
    ∧ at2 (new_components v) r c = Some nc
    ∧ nc = tmap (λ p, rint_div p 9) ws
    ∧ update_grid grid rng = Some (grid', rng')
    ∧ at2 grid' r c = lookup_at (twist_of nc)
    ∧ ∀ X a b k,
        weights_at X = Some (a, b, k) →
        (∀ di dj, (di, dj) ∈ offsets → (di, dj) ≠ (0, 0) →
           at2 grid (wrap (nrows grid) (Z.of_nat r + di))
                    (wrap (ncols grid) (Z.of_nat c + dj)) = Some X) →
        nc = (a, b, k)
        ∧ at2 grid' r c
          = lookup_at ((a + 1) mod 3, (b + 1) mod 3, (k + 1) mod 3)
        ∧ ∀ Y, 0 <= Y <= 20 →
            weights_at Y = Some ((a + 1) mod 3, (b + 1) mod 3, (k + 1) mod 3) →
            at2 grid' r c = Some Y.
Proof.
  intros Hrect Hidx Hrc.
  apply at2_cell in Hrc as (Hr & Hc & Hg); [|done].
  destruct (vote_spec grid Hrect Hidx) as (v & Hv & _ & Htf & Hws & Hnc).
  destruct (update_grid_spec grid rng Hrect Hidx) as (M' & rng' & Hrun & Hdet & _).
  assert (cell_total_filter grid r c = 9) as Htf9.
  { unfold cell_total_filter. rewrite Hg. reflexivity. }
  assert (cell_new_components grid r c
          = tmap (λ p, rint_div p 9) (cell_weighted_sum grid r c)) as Hnc9.
  { unfold cell_new_components. rewrite Htf9. reflexivity. }
  assert (at2 (tab (nrows grid) (ncols grid) M') r c
          = lookup_at (twist_of (cell_new_components grid r c))) as Hout.
  { rewrite tab_lookup by done. rewrite Hdet by (done || by rewrite Hg).
    rewrite Hg. unfold masked. simpl. symmetry. apply lookup_at_lk, twist_in02. }
  exists v, (cell_weighted_sum grid r c), (cell_new_components grid r c),
    (tab (nrows grid) (ncols grid) M'), rng'.
  split; [done|]. split; [by rewrite Htf, tab_lookup, Htf9|].
  split; [by rewrite Hws, tab_lookup|]. split; [by rewrite Hnc, tab_lookup|].
  split; [done|]. split; [exact Hrun|]. split; [exact Hout|].
  intros X a b k HX Hnb.
  assert (wt X = (a, b, k)) as HwX by (unfold wt; by rewrite HX).
  assert (in02 (a, b, k)) as (Ha & Hb & Hk) by (rewrite <-HwX; apply wt_in02).
  simpl in Ha, Hb, Hk.
  assert (∀ di dj, (di, dj) ∈ offsets → (di, dj) ≠ (0, 0) →
            rolled_cell grid r c di dj = X) as Hroll.
  { intros di dj Hin Hne. rewrite rolled_cell_neighbour. unfold cell.
    rewrite (Hnb (- di) (- dj)); [done|by apply offsets_neg|].
    intros [=]. apply Hne. f_equal; lia. }
  assert (cell_new_components grid r c = (a, b, k)) as Hnc_eq.
  { rewrite Hnc9. unfold cell_weighted_sum. rewrite Hg. unfold offsets. simpl.
    rewrite rolled_cell_self by done. rewrite Hg.
    rewrite !Hroll by (unfold offsets; rewrite ?elem_of_cons; (tauto || discriminate)).
    rewrite HwX. unfold tsum, tscale, tadd, tmap, coeff, where3, wt. simpl.
    trans (rint_div (8 * a + 1) 9, rint_div (8 * b + 1) 9, rint_div (8 * k + 1) 9).
    - f_equal; [f_equal|]; f_equal; lia.
    - by rewrite !rint_div_9. }
  split; [done|]. rewrite Hout, Hnc_eq. split; [done|].
  intros Y HY HwY. by apply lookup_weights.
Qed.

Lemma na_twist_witness :
  ∃ v ws nc grid' rng',
    vote [[0; 0; 0]; [0; 20; 0]; [0; 0; 0]] = Some v
    ∧ at2 (total_filter v) 1 1 = Some 9
    ∧ at2 (weighted_sum v) 1 1 = Some ws
    ∧ at2 (new_components v) 1 1 = Some nc
    ∧ nc = tmap (λ p, rint_div p 9) ws
    ∧ update_grid [[0; 0; 0]; [0; 20; 0]; [0; 0; 0]] (λ _, 0%nat) = Some (grid', rng')
    ∧ at2 grid' 1 1 = lookup_at (twist_of nc)
    ∧ ∀ X a b k,
        weights_at X = Some (a, b, k) →
        (∀ di dj, (di, dj) ∈ offsets → (di, dj) ≠ (0, 0) →
           at2 [[0; 0; 0]; [0; 20; 0]; [0; 0; 0]]
               (wrap (nrows [[0; 0; 0]; [0; 20; 0]; [0; 0; 0]]) (Z.of_nat 1 + di))
               (wrap (ncols [[0; 0; 0]; [0; 20; 0]; [0; 0; 0]]) (Z.of_nat 1 + dj))
           = Some X) →
        nc = (a, b, k)
        ∧ at2 grid' 1 1
          = lookup_at ((a + 1) mod 3, (b + 1) mod 3, (k + 1) mod 3)
        ∧ ∀ Y, 0 <= Y <= 20 →
            weights_at Y = Some ((a + 1) mod 3, (b + 1) mod 3, (k + 1) mod 3) →
            at2 grid' 1 1 = Some Y.
Proof.
  apply na_twist.
  - repeat constructor.
  - repeat constructor; lia.
  - reflexivity.
Defined.

Lemma full_rect {A} rows cols (v : A) : rect (full rows cols v).
Proof.
  unfold rect, ncols, full. destruct rows as [|rows]; [constructor|].
  simpl. rewrite length_replicate. constructor; [by rewrite length_replicate|].
  apply Forall_replicate. by rewrite length_replicate.
Qed.

Lemma full_dims {A} rows cols (v : A) :
  tab (nrows (full rows cols v)) (ncols (full rows cols v)) (λ _ _, v)
  = full rows cols v.
Proof.
  rewrite (full_tab rows cols v). unfold nrows. rewrite tab_length.
  destruct rows as [|rows]; [done|].
  unfold ncols, tab. simpl. by rewrite length_fmap, length_seq.
Qed.

Lemma full_cell rows cols (X : Z) r c :
  (r < nrows (full rows cols X))%nat → (c < ncols (full rows cols X))%nat →
  cell (full rows cols X) r c = X.
Proof.
  intros Hr Hc. pose proof (full_dims rows cols X) as Hd.
  unfold cell. rewrite <-Hd at 1. by rewrite tab_lookup.
Qed.

Lemma ordinary_weight_pos X :
  0 <= X <= 17 → 0 < ((wt X).1.1 + (wt X).1.2 + (wt X).2) ^ 2.
Proof.
  intros HX.
  apply (Z_interval_cases (λ X, 0 < ((wt X).1.1 + (wt X).1.2 + (wt X).2) ^ 2) 0 18);
    [|lia].
  vm_compute. reflexivity.
Qed.

Lemma tmap_rint_scale q u : 0 < q → tmap (λ p, rint_div p q) (tscale q u) = u.
Proof.
  intros Hq. destruct u as [[u0 u1] u2]. unfold tmap, tscale.
  by rewrite !rint_div_exact.
Qed.

(** C7.  A grid of any dimensions in which every cell holds one ordinary
    state X (0 <= X <= 17) is returned unchanged, for every random source. *)
Theorem uniform_fixed_point rows cols X rng :
  0 <= X <= 17 → step (full rows cols X) rng = Some (full rows cols X).
Proof.
  intros HX.
  assert (rect (full rows cols X)) as Hrect by apply full_rect.
  assert (indexable (full rows cols X)) as Hidx.
  { unfold full. apply Forall_replicate, Forall_replicate. lia. }
  destruct (update_grid_spec _ rng Hrect Hidx) as (M' & rng' & Hrun & Hdet & _).
  unfold step. rewrite Hrun. simpl. f_equal.
  rewrite <-(full_dims rows cols X) at 3. apply tab_ext. intros r c Hr Hc.
  pose proof (full_cell rows cols X r c Hr Hc) as Hcell.
  rewrite Hdet by (done || rewrite Hcell; unfold NILL_IDX; lia).
  assert (cell_new_components (full rows cols X) r c = wt X) as ->.
  { unfold cell_new_components, cell_total_filter, cell_weighted_sum.
    rewrite Hcell, total_filter_square.
    pose proof (ordinary_weight_pos X HX) as Hpos.
    destruct (Z.eqb_spec (((wt X).1.1 + (wt X).1.2 + (wt X).2) ^ 2) 0); [lia|].
    simpl negb. cbv iota.
    rewrite (list_fmap_ext _ (λ '(di, dj), tscale (coeff (wt X) di dj) (wt X)) offsets).
    2:{ intros _ [di dj] _. unfold rolled_cell. rewrite full_cell; [done| |].
        - apply wrap_lt. lia.
        - apply wrap_lt. lia. }
    rewrite uniform_sum. by apply tmap_rint_scale. }
  rewrite Hcell. unfold masked.
  destruct (Z.eqb_spec X NA_IDX); [unfold NA_IDX in *; lia|].
  destruct (Z.eqb_spec X NULL_IDX); [unfold NULL_IDX in *; lia|].
  apply lk_wt. lia.
Qed.

Lemma uniform_fixed_point_witness :
  step (full 2 3 5) (λ _, 0%nat) = Some (full 2 3 5).
Proof. apply uniform_fixed_point. lia. Defined.

(** C8.  The state table has 21 weight triples, pairwise distinct, all over
    {0, 1, 2}; looking up the weight of state i in [lookup] gives i back for
    every i in [0, 20]; and of the 27 triples over {0, 1, 2} exactly 21 are
    mapped by [lookup], namely those some state carries. *)
Theorem table_injective :
  length weights = 21%nat
  ∧ NoDup weights
  ∧ Forall in02 weights
  ∧ Forall (λ i, weights_at i ≫= lookup_at = Some i) (seqZ 0 21)
  ∧ length all_triples = 27%nat
  ∧ length (filter (λ w, lookup_at w ≠ Some (-1)) all_triples) = 21%nat
  ∧ Forall (λ w, lookup_at w ≠ Some (-1) ↔ w ∈ weights) all_triples.
Proof.
  split; [reflexivity|].
  split; [apply (bool_decide_eq_true_1 (NoDup weights)); vm_compute; reflexivity|].
  split; [apply weights_in02|].
  split.
  { apply (bool_decide_eq_true_1
             (Forall (λ i, weights_at i ≫= lookup_at = Some i) (seqZ 0 21))).
    vm_compute. reflexivity. }
  split; [reflexivity|].
  split; [vm_compute; reflexivity|].
  apply (bool_decide_eq_true_1
           (Forall (λ w, lookup_at w ≠ Some (-1) ↔ w ∈ weights) all_triples)).
  vm_compute. reflexivity.
Qed.

(** C10.  On a rectangular grid over [-1, 20] (the 21 states and the [-1]
    a step can write), at every cell of weight (a, b, k): [total_filter] is
    (a + b + k)^2, and it is 0 exactly when the cell holds Null.  The values
    the fallback branch of line 83 puts into [new_components] are never
    read out: replacing [new_components] by any array of triples over
    {0, 1, 2} that agrees with it wherever [total_filter] is not 0 leaves
    the result of lines 86-111 unchanged. *)
Theorem zero_filter_fallback_unused grid rng :
  rect grid → emitted grid →
  ∃ v, vote grid = Some v
    ∧ (∀ r c, (r < nrows grid)%nat → (c < ncols grid)%nat →
         ∃ a b k,
           weights_at (cell grid r c) = Some (a, b, k)
           ∧ at2 (total_filter v) r c = Some ((a + b + k) ^ 2)
           ∧ ((a + b + k) ^ 2 = 0 ↔ cell grid r c = NULL_IDX))
    ∧ (∀ N : nat → nat → triple,
         (∀ r c, in02 (N r c)) →
         (∀ r c, (r < nrows grid)%nat → (c < ncols grid)%nat →
            at2 (total_filter v) r c ≠ Some 0 →
            at2 (new_components v) r c = Some (N r c)) →
         finish grid (tab (nrows grid) (ncols grid) N) rng = update_grid grid rng).
Proof.
  intros Hrect Hem. pose proof (emitted_indexable grid Hem) as Hidx.
  destruct (vote_spec grid Hrect Hidx) as (v & Hv & _ & Htf & _ & Hnc).
  exists v. split; [done|]. split.
  - intros r c Hr Hc. destruct (wt (cell grid r c)) as [[a b] k] eqn:Hw.
    exists a, b, k.
    split; [rewrite weights_at_wt by (by apply cell_indexable); by rewrite Hw|].
    split.
    + rewrite Htf, tab_lookup by done. unfold cell_total_filter.
      by rewrite total_filter_square, Hw.
    + rewrite <-(wt_zero_iff (cell grid r c)) by (by apply cell_emitted).
      rewrite Hw. pose proof (wt_in02 (cell grid r c)) as Hin. rewrite Hw in Hin.
      unfold in02 in Hin. simpl in Hin. split.
      * intros Hz. assert (a + b + k = 0) by nia.
        f_equal; [f_equal|]; lia.
      * intros [= -> -> ->]. done.
  - intros N HN Hagree. unfold update_grid. rewrite Hv. simpl. rewrite Hnc.
    pose proof (rect_tab grid Hrect) as HG.
    rewrite !(finish_tab grid (nrows grid) (ncols grid) (cell grid))
      by (done || apply cell_new_components_in02).
    f_equal. f_equal. apply tab_ext. intros r c Hr Hc.
    destruct (decide (cell_total_filter grid r c = 0)) as [Hz|Hnz].
    + assert (cell grid r c = NULL_IDX) as ->.
      { apply wt_zero_iff; [by apply cell_emitted|].
        unfold cell_total_filter in Hz. rewrite total_filter_square in Hz.
        pose proof (wt_in02 (cell grid r c)) as Hin.
        destruct (wt (cell grid r c)) as [[a b] k]. unfold in02 in Hin.
        simpl in *. assert (a + b + k = 0) by nia. f_equal; [f_equal|]; lia. }
      reflexivity.
    + specialize (Hagree r c Hr Hc). rewrite Htf, Hnc, !tab_lookup in Hagree by done.
      f_equal. assert (Some (cell_new_components grid r c) = Some (N r c)) as [= ->].
      { apply Hagree. intros [=]. done. }
      done.
Qed.

Lemma zero_filter_fallback_unused_witness :
  ∃ v, vote [[18; 0]; [5; 18]] = Some v
    ∧ (∀ r c, (r < nrows [[18; 0]; [5; 18]])%nat → (c < ncols [[18; 0]; [5; 18]])%nat →
         ∃ a b k,
           weights_at (cell [[18; 0]; [5; 18]] r c) = Some (a, b, k)
           ∧ at2 (total_filter v) r c = Some ((a + b + k) ^ 2)
           ∧ ((a + b + k) ^ 2 = 0 ↔ cell [[18; 0]; [5; 18]] r c = NULL_IDX))
    ∧ (∀ N : nat → nat → triple,
         (∀ r c, in02 (N r c)) →
         (∀ r c, (r < nrows [[18; 0]; [5; 18]])%nat → (c < ncols [[18; 0]; [5; 18]])%nat →
            at2 (total_filter v) r c ≠ Some 0 →
            at2 (new_components v) r c = Some (N r c)) →
         finish [[18; 0]; [5; 18]]
                (tab (nrows [[18; 0]; [5; 18]]) (ncols [[18; 0]; [5; 18]]) N)
                (λ _, 0%nat)
         = update_grid [[18; 0]; [5; 18]] (λ _, 0%nat)).
Proof.
  apply zero_filter_fallback_unused.
  - repeat constructor.
  - repeat constructor; lia.
Defined.

(** X1.  A rectangular grid over [-1, 20] steps to a grid of the same
    dimensions over [-1, 20]. *)
Theorem update_grid_shape_and_range grid rng :
  rect grid → emitted grid →
  ∃ grid' rng',
    update_grid grid rng = Some (grid', rng')
    ∧ length grid' = length grid
    ∧ Forall (λ row, length row = ncols grid) grid'
    ∧ emitted grid'.
Proof. apply update_grid_closed. Qed.

Lemma update_grid_shape_and_range_witness :
  ∃ grid' rng',
    update_grid [[16; 17; -1]; [19; 20; 18]] (λ _, 3%nat) = Some (grid', rng')
    ∧ length grid' = length [[16; 17; -1]; [19; 20; 18]]
    ∧ Forall (λ row, length row = ncols [[16; 17; -1]; [19; 20; 18]]) grid'
    ∧ emitted grid'.
Proof.
  apply update_grid_shape_and_range.
  - repeat constructor.
  - repeat constructor; lia.
Defined.

(** X2.  The weighted sum the code computes: at (r, c) the coefficient of
    offset (di, dj), taken from the cell's own weight, multiplies the weight
    of the cell at ((r - di) mod rows, (c - dj) mod cols). *)
Theorem weighted_sum_rolled grid r c :
  rect grid → indexable grid → (r < nrows grid)%nat → (c < ncols grid)%nat →
  ∃ v, vote grid = Some v
    ∧ at2 (weighted_sum v) r c
      = Some (tsum ((λ '(di, dj),
                tscale (coeff (wt (cell grid r c)) di dj)
                       (wt (cell grid (wrap (nrows grid) (Z.of_nat r - di))
                                      (wrap (ncols grid) (Z.of_nat c - dj)))))
              <$> offsets)).
Proof.
  intros Hrect Hidx Hr Hc.
  destruct (vote_spec grid Hrect Hidx) as (v & Hv & _ & _ & Hws & _).
  exists v. split; [done|]. by rewrite Hws, tab_lookup.
Qed.

Lemma weighted_sum_rolled_witness :
  ∃ v, vote blue_corner = Some v
    ∧ at2 (weighted_sum v) 1 1
      = Some (tsum ((λ '(di, dj),
                tscale (coeff (wt (cell blue_corner 1 1)) di dj)
                       (wt (cell blue_corner
                              (wrap (nrows blue_corner) (Z.of_nat 1 - di))
                              (wrap (ncols blue_corner) (Z.of_nat 1 - dj)))))
              <$> offsets)).
Proof.
  apply weighted_sum_rolled.
  - repeat constructor.
  - repeat constructor; lia.
  - vm_compute. lia.
  - vm_compute. lia.
Defined.

(** X3.  A Nill cell's next state is one of the non-Null states of its full
    3 x 3 block, and Nill itself is always one of these, so the [else]
    branch of line 108 is never taken. *)
Theorem nill_draws_from_block grid rng r c :
  rect grid → indexable grid → at2 grid r c = Some NILL_IDX →
  ∃ grid' rng' v,
    update_grid grid rng = Some (grid', rng')
    ∧ at2 grid' r c = Some v
    ∧ v ∈ cell_choices (nrows grid) (ncols grid) (cell grid) r c
    ∧ NILL_IDX ∈ cell_choices (nrows grid) (ncols grid) (cell grid) r c.
Proof.
  intros Hrect Hidx Hrc.
  apply at2_cell in Hrc as (Hr & Hc & Hg); [|done].
  destruct (update_grid_spec grid rng Hrect Hidx) as (M' & rng' & Hrun & _ & Hnill).
  eexists _, rng', (M' r c). split; [exact Hrun|].
  split; [by rewrite tab_lookup|]. split; [by apply Hnill|].
  rewrite <-Hg. apply cell_choices_self; [done|done|]. by rewrite Hg.
Qed.

Lemma nill_draws_from_block_witness :
  ∃ grid' rng' v,
    update_grid lone_red (λ _, 1%nat) = Some (grid', rng')
    ∧ at2 grid' 1 1 = Some v
    ∧ v ∈ cell_choices (nrows lone_red) (ncols lone_red) (cell lone_red) 1 1
    ∧ NILL_IDX ∈ cell_choices (nrows lone_red) (ncols lone_red) (cell lone_red) 1 1.
Proof.
  apply nill_draws_from_block.
  - repeat constructor.
  - repeat constructor; lia.
  - reflexivity.
Defined.

(** * The main loop, the drawing and further properties of a step *)

(** * Shapes *)

Lemma rect_empty {A} (x : list (list A)) : nrows x = 0%nat → ncols x = 0%nat.
Proof. unfold nrows, ncols. by destruct x. Qed.

Lemma tab_ncols {A} rows cols (f : nat → nat → A) :
  (rows = 0%nat → cols = 0%nat) → ncols (tab rows cols f) = cols.
Proof.
  intros H0. unfold ncols, tab. destruct rows as [|rows]; simpl.
  - symmetry. by apply H0.
  - by rewrite length_fmap, length_seq.
Qed.

Lemma tab_rect {A} rows cols (f : nat → nat → A) :
  (rows = 0%nat → cols = 0%nat) → rect (tab rows cols f).
Proof. intros H0. unfold rect. rewrite tab_ncols by done. apply tab_shape. Qed.

Lemma tab_cell rows cols (f : nat → nat → Z) r c :
  (r < rows)%nat → (c < cols)%nat → cell (tab rows cols f) r c = f r c.
Proof. intros Hr Hc. unfold cell. by rewrite tab_lookup. Qed.

(** one generation keeps the shape and the range [-1, 20] *)
Lemma update_grid_keeps grid rng :
  rect grid → emitted grid →
  ∃ M' rng',
    update_grid grid rng = Some (tab (nrows grid) (ncols grid) M', rng')
    ∧ rect (tab (nrows grid) (ncols grid) M')
    ∧ nrows (tab (nrows grid) (ncols grid) M') = nrows grid
    ∧ ncols (tab (nrows grid) (ncols grid) M') = ncols grid
    ∧ emitted (tab (nrows grid) (ncols grid) M')
    ∧ (∀ r c, (r < nrows grid)%nat → (c < ncols grid)%nat →
         cell grid r c ≠ NILL_IDX →
         M' r c = masked (cell grid r c) (cell_new_components grid r c)).
Proof.
  intros Hrect Hem.
  destruct (update_grid_spec grid rng Hrect (emitted_indexable _ Hem))
    as (M' & rng' & Hrun & Hdet & Hnill).
  exists M', rng'. split; [done|].
  split; [apply tab_rect, rect_empty|].
  split; [apply tab_length|]. split; [apply tab_ncols, rect_empty|].
  split; [|done]. apply tab_Forall. intros r c Hr Hc.
  destruct (decide (cell grid r c = NILL_IDX)) as [Hn|Hn].
  - eapply cell_choices_range; [done|]. by apply Hnill.
  - rewrite Hdet by done.
    apply masked_range; [by apply cell_emitted|apply cell_new_components_in02].
Qed.

(** * Cells of unit weight *)

Lemma weighted_sum_unit (u : Z → Z → triple) :
  tsum ((λ '(di, dj), tscale (coeff (1, 0, 0) di dj) (u di dj)) <$> offsets)
  = u (-1) (-1)
  ∧ tsum ((λ '(di, dj), tscale (coeff (0, 1, 0) di dj) (u di dj)) <$> offsets)
    = u 0 0
  ∧ tsum ((λ '(di, dj), tscale (coeff (0, 0, 1) di dj) (u di dj)) <$> offsets)
    = u 1 1.
Proof.
  unfold tsum, offsets. simpl.
  destruct (u (-1) (-1)) as [[? ?] ?], (u (-1) 0) as [[? ?] ?],
    (u (-1) 1) as [[? ?] ?], (u 0 (-1)) as [[? ?] ?], (u 0 0) as [[? ?] ?],
    (u 0 1) as [[? ?] ?], (u 1 (-1)) as [[? ?] ?], (u 1 0) as [[? ?] ?],
    (u 1 1) as [[? ?] ?].
  unfold where3; simpl. repeat split; (f_equal; [f_equal|]); lia.
Qed.

Lemma rint_div_1 p : rint_div p 1 = p.
Proof. rewrite <-(Z.mul_1_l p) at 1. by apply rint_div_exact. Qed.

Lemma tmap_rint_1 u : tmap (λ p, rint_div p 1) u = u.
Proof. destruct u as [[u0 u1] u2]. unfold tmap. by rewrite !rint_div_1. Qed.

Lemma unit_new_components grid r c :
  (wt (cell grid r c) = (1, 0, 0) →
     cell_new_components grid r c = wt (rolled_cell grid r c (-1) (-1)))
  ∧ (wt (cell grid r c) = (0, 1, 0) →
     cell_new_components grid r c = wt (rolled_cell grid r c 0 0))
  ∧ (wt (cell grid r c) = (0, 0, 1) →
     cell_new_components grid r c = wt (rolled_cell grid r c 1 1)).
Proof.
  destruct (weighted_sum_unit (λ di dj, wt (rolled_cell grid r c di dj)))
    as (Ha & Hb & Hc).
  unfold cell_new_components, cell_total_filter, cell_weighted_sum.
  rewrite total_filter_square.
  repeat split; intros Hw; rewrite Hw; rewrite ?Ha, ?Hb, ?Hc; simpl;
    apply tmap_rint_1.
Qed.

Lemma lk_wt_canonical s : -21 <= s <= 20 → lk (wt s) = canonical s.
Proof.
  intros Hs. apply (Z_interval_cases (λ s, lk (wt s) = canonical s) (-21) 42); [|lia].
  vm_compute. reflexivity.
Qed.

Lemma canonical_state s : 0 <= s <= 20 → canonical s = s.
Proof. intros Hs. unfold canonical. apply Z.mod_small. lia. Qed.

Lemma masked_ordinary g nc :
  g ≠ NA_IDX → g ≠ NULL_IDX → masked g nc = lk nc.
Proof.
  intros H1 H2. unfold masked.
  destruct (Z.eqb_spec g NA_IDX); [done|]. by destruct (Z.eqb_spec g NULL_IDX).
Qed.

(** one step at a Null or Lime cell *)
Lemma absorbing_step grid r c s :
  s = NULL_IDX ∨ s = 6 → cell grid r c = s →
  (r < nrows grid)%nat → (c < ncols grid)%nat →
  masked (cell grid r c) (cell_new_components grid r c) = s.
Proof.
  intros [->| ->] Hg Hr Hc; rewrite Hg.
  - reflexivity.
  - destruct (unit_new_components grid r c) as (_ & Hb & _).
    rewrite Hb by (by rewrite Hg). rewrite rolled_cell_self, Hg by done.
    reflexivity.
Qed.

Lemma generations_inv n : ∀ grid rng,
  rect grid → emitted grid →
  ∃ grid' rng',
    generations n grid rng = Some (grid', rng')
    ∧ rect grid' ∧ nrows grid' = nrows grid ∧ ncols grid' = ncols grid
    ∧ emitted grid'
    ∧ ∀ r c s, s = NULL_IDX ∨ s = 6 →
        at2 grid r c = Some s → at2 grid' r c = Some s.
Proof.
  induction n as [|n IH]; intros grid rng Hrect Hem.
  { exists grid, rng. simpl. repeat split; done. }
  destruct (update_grid_keeps grid rng Hrect Hem)
    as (M' & rng1 & Hrun & Hrect1 & Hrows1 & Hcols1 & Hem1 & Hdet).
  destruct (IH _ rng1 Hrect1 Hem1) as (g2 & rng2 & Hgen & Hrect2 & Hr2 & Hc2 & Hem2 & Habs).
  exists g2, rng2. simpl. rewrite Hrun. simpl.
  split; [done|]. split; [done|]. split; [congruence|]. split; [congruence|].
  split; [done|]. intros r c s Hs Hrc. apply Habs; [done|].
  apply at2_cell in Hrc as (Hr & Hc & Hg); [|done].
  rewrite tab_lookup by done. f_equal. rewrite Hdet.
  - by apply absorbing_step.
  - done.
  - done.
  - rewrite Hg. destruct Hs as [->| ->]; discriminate.
Qed.

(** X4.  The loop of [main] keeps its grid well formed: from a rectangular
    grid over [-1, 20], any number of generations run without raising and
    leave a rectangular grid of the same dimensions over [-1, 20]. *)
Theorem generations_keep_shape_and_range grid rng n :
  rect grid → emitted grid →
  ∃ grid' rng',
    generations n grid rng = Some (grid', rng')
    ∧ rect grid' ∧ nrows grid' = nrows grid ∧ ncols grid' = ncols grid
    ∧ emitted grid'.
Proof.
  intros Hrect Hem.
  destruct (generations_inv n grid rng Hrect Hem) as (g & rng' & H1 & H2 & H3 & H4 & H5 & _).
  by exists g, rng'.
Qed.

Lemma generations_keep_shape_and_range_witness :
  ∃ grid' rng',
    generations 5 [[16; 17; 19]; [20; 2; 18]] (λ k, k) = Some (grid', rng')
    ∧ rect grid' ∧ nrows grid' = nrows [[16; 17; 19]; [20; 2; 18]]
    ∧ ncols grid' = ncols [[16; 17; 19]; [20; 2; 18]]
    ∧ emitted grid'.
Proof.
  apply generations_keep_shape_and_range.
  - repeat constructor.
  - repeat constructor; lia.
Defined.

(** X5.  Null and Lime are both absorbing: a cell that holds Null (18) or
    Lime (6) holds the same state after any number of generations, whatever
    its neighbours and the random source.  (Lime's weight (0, 1, 0) leaves
    the cell itself as the only voter.) *)
Theorem null_and_lime_never_change grid rng n :
  rect grid → emitted grid →
  ∃ grid' rng',
    generations n grid rng = Some (grid', rng')
    ∧ ∀ r c s, s = NULL_IDX ∨ s = 6 →
        at2 grid r c = Some s → at2 grid' r c = Some s.
Proof.
  intros Hrect Hem.
  destruct (generations_inv n grid rng Hrect Hem) as (g & rng' & H1 & _ & _ & _ & _ & H6).
  by exists g, rng'.
Qed.

Lemma null_and_lime_never_change_witness :
  ∃ grid' rng',
    generations 4 [[6; 17; 19]; [20; 2; 18]] (λ k, k) = Some (grid', rng')
    ∧ ∀ r c s, s = NULL_IDX ∨ s = 6 →
        at2 [[6; 17; 19]; [20; 2; 18]] r c = Some s → at2 grid' r c = Some s.
Proof.
  apply null_and_lime_never_change.
  - repeat constructor.
  - repeat constructor; lia.
Defined.

(** X6.  Red and Blue cells copy a diagonal neighbour: after one step a Red
    cell (0) holds the state of the cell at (r + 1, c + 1) and a Blue cell
    (10) that of the cell at (r - 1, c - 1), on the torus; a negative entry
    is copied as the state it indexes. *)
Theorem red_and_blue_copy_a_diagonal grid rng r c :
  rect grid → indexable grid → (r < nrows grid)%nat → (c < ncols grid)%nat →
  ∃ grid' rng',
    update_grid grid rng = Some (grid', rng')
    ∧ (cell grid r c = 0 →
         at2 grid' r c
         = Some (canonical (cell grid (wrap (nrows grid) (Z.of_nat r + 1))
                                      (wrap (ncols grid) (Z.of_nat c + 1)))))
    ∧ (cell grid r c = 10 →
         at2 grid' r c
         = Some (canonical (cell grid (wrap (nrows grid) (Z.of_nat r - 1))
                                      (wrap (ncols grid) (Z.of_nat c - 1))))).
Proof.
  intros Hrect Hidx Hr Hc.
  destruct (update_grid_spec grid rng Hrect Hidx) as (M' & rng' & Hrun & Hdet & _).
  destruct (unit_new_components grid r c) as (Ha & _ & Hk).
  exists (tab (nrows grid) (ncols grid) M'), rng'. split; [done|].
  split; intros Hg; rewrite tab_lookup by done; f_equal;
    (rewrite Hdet by (done || by rewrite Hg)); rewrite Hg at 1;
    (rewrite masked_ordinary by done).
  - rewrite Ha by (by rewrite Hg). unfold rolled_cell.
    replace (Z.of_nat r - -1) with (Z.of_nat r + 1) by lia.
    replace (Z.of_nat c - -1) with (Z.of_nat c + 1) by lia.
    apply lk_wt_canonical, cell_indexable, Hidx.
  - rewrite Hk by (by rewrite Hg). unfold rolled_cell.
    apply lk_wt_canonical, cell_indexable, Hidx.
Qed.

Lemma red_and_blue_copy_a_diagonal_witness :
  ∃ grid' rng',
    update_grid nine_cells (λ _, 0%nat) = Some (grid', rng')
    ∧ (cell nine_cells 1 1 = 0 →
         at2 grid' 1 1
         = Some (canonical (cell nine_cells
                    (wrap (nrows nine_cells) (Z.of_nat 1 + 1))
                    (wrap (ncols nine_cells) (Z.of_nat 1 + 1)))))
    ∧ (cell nine_cells 1 1 = 10 →
         at2 grid' 1 1
         = Some (canonical (cell nine_cells
                    (wrap (nrows nine_cells) (Z.of_nat 1 - 1))
                    (wrap (ncols nine_cells) (Z.of_nat 1 - 1))))).
Proof.
  apply red_and_blue_copy_a_diagonal.
  - repeat constructor.
  - repeat constructor; lia.
  - vm_compute. lia.
  - vm_compute. lia.
Defined.

(** * When a call raises *)

Lemma np_index_range {A} (l : list A) i :
  is_Some (np_index l i) → - Z.of_nat (length l) <= i < Z.of_nat (length l).
Proof.
  unfold np_index. repeat case_bool_decide; try lia. by intros [? ?].
Qed.

(** X8.  On a rectangular grid [update_grid] raises exactly when some entry
    is outside [-21, 20], the range that indexes the 21 rows of [weights];
    no later lookup can raise. *)
Theorem update_grid_raises_iff_out_of_range grid rng :
  rect grid → (is_Some (update_grid grid rng) ↔ indexable grid).
Proof.
  intros Hrect. split.
  - intros [res Hres]. unfold update_grid in Hres.
    destruct (vote grid) as [v|] eqn:Hv; [|done].
    unfold vote in Hv.
    destruct (amapM weights_at grid) as [cw|] eqn:Hcw; [|done].
    assert (is_Some (mapM (mapM weights_at) grid)) as Hs by (by eexists).
    apply mapM_is_Some in Hs. unfold indexable.
    eapply Forall_impl; [exact Hs|]. intros row Hrow. simpl in Hrow.
    apply mapM_is_Some in Hrow.
    eapply Forall_impl; [exact Hrow|]. intros g Hg. simpl in Hg.
    apply np_index_range in Hg. simpl in Hg. lia.
  - intros Hidx.
    destruct (update_grid_spec grid rng Hrect Hidx) as (M' & rng' & Hrun & _).
    by eexists.
Qed.

Lemma update_grid_raises_iff_out_of_range_witness :
  is_Some (update_grid [[0; 21]] (λ _, 0%nat)) ↔ indexable [[0; 21]].
Proof. apply update_grid_raises_iff_out_of_range. repeat constructor. Defined.

(** * Shifting the grid around the torus *)

Lemma wrap_wrap_sub n i d :
  (0 < n)%nat → wrap n (Z.of_nat (wrap n i) - d) = wrap n (i - d).
Proof.
  intros Hn. unfold wrap. rewrite Z2Nat.id by (apply Z.mod_pos_bound; lia).
  by rewrite Zminus_mod_idemp_l.
Qed.

Lemma roll2_rect (grid : list (list Z)) a b :
  rect grid →
  roll2 a b grid
  = tab (nrows grid) (ncols grid)
        (λ r c, cell grid (wrap (nrows grid) (Z.of_nat r - a))
                          (wrap (ncols grid) (Z.of_nat c - b))).
Proof.
  intros Hrect. rewrite <-roll2_tab. f_equal. by apply rect_tab.
Qed.

Section shifted.
Variables (grid : list (list Z)) (a b : Z).
Hypothesis Hrect : rect grid.

Let rows := nrows grid.
Let cols := ncols grid.
Let src_r (r : nat) := wrap rows (Z.of_nat r - a).
Let src_c (c : nat) := wrap cols (Z.of_nat c - b).

Lemma shifted_rect : rect (roll2 a b grid).
Proof. rewrite roll2_rect by done. apply tab_rect, rect_empty. Qed.

Lemma shifted_nrows : nrows (roll2 a b grid) = rows.
Proof. rewrite roll2_rect by done. apply tab_length. Qed.

Lemma shifted_ncols : ncols (roll2 a b grid) = cols.
Proof. rewrite roll2_rect by done. apply tab_ncols, rect_empty. Qed.

Lemma shifted_cell r c :
  (r < rows)%nat → (c < cols)%nat →
  cell (roll2 a b grid) r c = cell grid (src_r r) (src_c c).
Proof. intros Hr Hc. rewrite roll2_rect by done. by rewrite tab_cell. Qed.

Lemma shifted_rolled_cell r c di dj :
  (r < rows)%nat → (c < cols)%nat →
  rolled_cell (roll2 a b grid) r c di dj
  = rolled_cell grid (src_r r) (src_c c) di dj.
Proof.
  intros Hr Hc. unfold rolled_cell. rewrite shifted_nrows, shifted_ncols.
  rewrite shifted_cell by (apply wrap_lt; lia).
  unfold src_r, src_c. fold rows cols. rewrite !wrap_wrap_sub by lia.
  f_equal; (f_equal; lia).
Qed.

Lemma shifted_new_components r c :
  (r < rows)%nat → (c < cols)%nat →
  cell_new_components (roll2 a b grid) r c
  = cell_new_components grid (src_r r) (src_c c).
Proof.
  intros Hr Hc. unfold cell_new_components, cell_total_filter, cell_weighted_sum.
  rewrite shifted_cell by done.
  rewrite (list_fmap_ext
    (λ '(di, dj), tscale (coeff (wt (cell grid (src_r r) (src_c c))) di dj)
                         (wt (rolled_cell (roll2 a b grid) r c di dj)))
    (λ '(di, dj), tscale (coeff (wt (cell grid (src_r r) (src_c c))) di dj)
                         (wt (rolled_cell grid (src_r r) (src_c c) di dj)))
    offsets); [done|].
  intros _ [di dj] _. by rewrite shifted_rolled_cell.
Qed.
End shifted.

(** X9.  The step commutes with shifting the grid around the torus: the
    step of the grid rolled by (a, b) agrees with the rolled step of the
    grid at every cell that is not Nill, for any two random sources, and
    the two grids are equal when the grid has no Nill cell. *)
Theorem update_grid_commutes_with_roll grid a b rng1 rng2 :
  rect grid → indexable grid →
  ∃ grid1 rng1' grid2 rng2',
    update_grid grid rng1 = Some (grid1, rng1')
    ∧ update_grid (roll2 a b grid) rng2 = Some (grid2, rng2')
    ∧ (∀ r c, (r < nrows grid)%nat → (c < ncols grid)%nat →
         at2 (roll2 a b grid) r c ≠ Some NILL_IDX →
         at2 grid2 r c = at2 (roll2 a b grid1) r c)
    ∧ (Forall (Forall (λ g, g ≠ NILL_IDX)) grid → grid2 = roll2 a b grid1).
Proof.
  intros Hrect Hidx.
  pose proof (shifted_rect grid a b Hrect) as Hrect'.
  pose proof (shifted_nrows grid a b Hrect) as Hrows'.
  pose proof (shifted_ncols grid a b Hrect) as Hcols'.
  assert (indexable (roll2 a b grid)) as Hidx'.
  { rewrite roll2_rect by done. apply tab_Forall. intros. by apply cell_indexable. }
  destruct (update_grid_spec grid rng1 Hrect Hidx) as (M1 & rng1' & Hrun1 & Hdet1 & _).
  destruct (update_grid_spec _ rng2 Hrect' Hidx') as (M2 & rng2' & Hrun2 & Hdet2 & _).
  rewrite Hrows', Hcols' in Hrun2, Hdet2.
  eexists _, rng1', _, rng2'. split; [exact Hrun1|]. split; [exact Hrun2|].
  assert (∀ r c, (r < nrows grid)%nat → (c < ncols grid)%nat →
            cell (roll2 a b grid) r c ≠ NILL_IDX →
            M2 r c = M1 (wrap (nrows grid) (Z.of_nat r - a))
                        (wrap (ncols grid) (Z.of_nat c - b))) as Hcell.
  { intros r c Hr Hc Hn. rewrite Hdet2 by done.
    rewrite shifted_new_components by done.
    rewrite shifted_cell in Hn |- * by done.
    rewrite Hdet1; [done| | |done]; apply wrap_lt; lia. }
  rewrite roll2_tab. split.
  - intros r c Hr Hc Hn. rewrite !tab_lookup by done. f_equal.
    apply Hcell; [done|done|]. intros Heq. apply Hn.
    rewrite cell_at2 by (rewrite ?Hrows', ?Hcols'; done). by rewrite Heq.
  - intros Hfree. apply tab_ext. intros r c Hr Hc. apply Hcell; [done|done|].
    rewrite shifted_cell by done.
    assert (∀ r c, cell grid r c ≠ NILL_IDX) as Hno; [|apply Hno].
    intros r0 c0. unfold cell, at2.
    destruct (grid !! r0) as [row|] eqn:Hrow; simpl; [|discriminate].
    destruct (row !! c0) as [g|] eqn:Hg; simpl; [|discriminate].
    pose proof (Forall_lookup_1 _ _ _ _ Hfree Hrow) as Hr0.
    apply (Forall_lookup_1 _ _ _ _ Hr0 Hg).
Qed.

Lemma update_grid_commutes_with_roll_witness :
  ∃ grid1 rng1' grid2 rng2',
    update_grid [[0; 5; 7]; [3; 19; 9]; [1; 2; 4]] (λ _, 0%nat) = Some (grid1, rng1')
    ∧ update_grid (roll2 1 (-2) [[0; 5; 7]; [3; 19; 9]; [1; 2; 4]]) (λ _, 3%nat)
      = Some (grid2, rng2')
    ∧ (∀ r c, (r < nrows [[0; 5; 7]; [3; 19; 9]; [1; 2; 4]])%nat →
              (c < ncols [[0; 5; 7]; [3; 19; 9]; [1; 2; 4]])%nat →
         at2 (roll2 1 (-2) [[0; 5; 7]; [3; 19; 9]; [1; 2; 4]]) r c ≠ Some NILL_IDX →
         at2 grid2 r c = at2 (roll2 1 (-2) grid1) r c)
    ∧ (Forall (Forall (λ g, g ≠ NILL_IDX)) [[0; 5; 7]; [3; 19; 9]; [1; 2; 4]] →
       grid2 = roll2 1 (-2) grid1).
Proof.
  apply update_grid_commutes_with_roll.
  - repeat constructor.
  - repeat constructor; lia.
Defined.

(** * The frame *)

Lemma height_of_range s : -21 <= s <= 20 → 0 <= height_of s <= 6.
Proof.
  intros Hs. apply (Z_interval_cases (λ s, 0 <= height_of s <= 6) (-21) 42); [|lia].
  vm_compute. reflexivity.
Qed.

Lemma wrap32_small z : - 2 ^ 31 <= z < 2 ^ 31 → wrap32 z = z.
Proof.
  intros Hz. unfold wrap32. change (2 ^ 31) with 2147483648 in *.
  change (2 ^ 32) with 4294967296. rewrite Z.mod_small by lia. lia.
Qed.

Lemma wrap32_eq a b : wrap32 a = wrap32 b → ∃ k, a - b = 4294967296 * k.
Proof.
  unfold wrap32. change (2 ^ 31) with 2147483648. change (2 ^ 32) with 4294967296.
  intros Heq.
  pose proof (Z.div_mod (a + 2147483648) 4294967296 ltac:(lia)) as Ha.
  pose proof (Z.div_mod (b + 2147483648) 4294967296 ltac:(lia)) as Hb.
  exists ((a + 2147483648) / 4294967296 - (b + 2147483648) / 4294967296). lia.
Qed.

Lemma py_sub_int32_Some a b y :
  py_sub_int32 a b = Some y → - 2147483648 <= a < 2147483648 ∧ y = wrap32 (a - b).
Proof.
  unfold py_sub_int32. change (2 ^ 31) with 2147483648.
  case_bool_decide; [|done]. by intros [= <-].
Qed.


(** what [tile] computes from the entry of the cell *)
Lemma tile_entry grid ox oy row col s :
  at2 grid row col = Some s → -21 <= s <= 20 →
  tile grid ox oy row col
  = (let x := (Z.of_nat col - Z.of_nat row) * 16 + ox in
     let y := (Z.of_nat col + Z.of_nat row) * 8 + oy in
     let k := 3 * height_of s in
     top_y ← py_sub_int32 y k;
     right_y ← py_sub_int32 (y + 8) k;
     bottom_y ← py_sub_int32 (y + 16) k;
     left_y ← py_sub_int32 (y + 8) k;
     Some (color_of s,
           [(x, top_y); (x + 16, right_y); (x, bottom_y); (x - 16, left_y)])).
Proof.
  intros Hs Hr. unfold tile, color_of, height_of. rewrite Hs. simpl.
  destruct (np_index_is_Some states s) as [st Hst]; [simpl; lia|].
  destruct (np_index_is_Some height_map s) as [h Hh]; [simpl; lia|].
  rewrite Hst, Hh. simpl.
  assert (0 <= h <= 6) as Hh6.
  { pose proof (height_of_range s Hr) as H6. unfold height_of in H6.
    by rewrite Hh in H6. }
  unfold py_mul_int32. rewrite wrap32_small
    by (unfold HEIGHT_SCALE; change (2 ^ 31) with 2147483648; lia).
  reflexivity.
Qed.


Lemma tile_inv grid ox oy row col rgb pts :
  tile grid ox oy row col = Some (rgb, pts) →
  ∃ s, at2 grid row col = Some s ∧ -21 <= s <= 20
    ∧ - 2147483648 <= (Z.of_nat col + Z.of_nat row) * 8 + oy
    ∧ (Z.of_nat col + Z.of_nat row) * 8 + oy + 16 < 2147483648
    ∧ pts = [((Z.of_nat col - Z.of_nat row) * 16 + ox,
              wrap32 ((Z.of_nat col + Z.of_nat row) * 8 + oy - 3 * height_of s));
             ((Z.of_nat col - Z.of_nat row) * 16 + ox + 16,
              wrap32 ((Z.of_nat col + Z.of_nat row) * 8 + oy + 8 - 3 * height_of s));
             ((Z.of_nat col - Z.of_nat row) * 16 + ox,
              wrap32 ((Z.of_nat col + Z.of_nat row) * 8 + oy + 16 - 3 * height_of s));
             ((Z.of_nat col - Z.of_nat row) * 16 + ox - 16,
              wrap32 ((Z.of_nat col + Z.of_nat row) * 8 + oy + 8 - 3 * height_of s))].
Proof.
  intros Ht.
  assert (∃ s, at2 grid row col = Some s ∧ -21 <= s <= 20) as (s & Hs & Hr).
  { unfold tile in Ht. destruct (at2 grid row col) as [s|]; [|done]. simpl in Ht.
    destruct (np_index states s) as [st|] eqn:Hst; [|done].
    exists s. split; [done|].
    assert (is_Some (np_index states s)) as Hsome by (by eexists).
    apply np_index_range in Hsome. simpl in Hsome. lia. }
  exists s. split; [done|]. split; [done|].
  rewrite (tile_entry _ _ _ _ _ s Hs Hr) in Ht. cbv zeta in Ht.
  set (y := (Z.of_nat col + Z.of_nat row) * 8 + oy) in *.
  set (k := 3 * height_of s) in *.
  destruct (py_sub_int32 y k) as [ty|] eqn:E1; simpl in Ht; [|done].
  destruct (py_sub_int32 (y + 8) k) as [ry|] eqn:E2; simpl in Ht; [|done].
  destruct (py_sub_int32 (y + 16) k) as [by'|] eqn:E3; simpl in Ht; [|done].
  injection Ht as _ <-.
  apply py_sub_int32_Some in E1 as [Hb1 ->], E2 as [Hb2 ->], E3 as [Hb3 ->].
  split; [lia|]. split; [lia|]. done.
Qed.


Lemma mapM_ext_in {A B} (f g : A → option B) (l : list A) :
  (∀ x, x ∈ l → f x = g x) → mapM f l = mapM g l.
Proof.
  induction l as [|x l IH]; intros H; [done|].
  simpl. rewrite (H x) by left. rewrite IH; [done|].
  intros y Hy. apply H. by right.
Qed.

Lemma elem_of_positions rows cols r c :
  (r, c) ∈ positions rows cols ↔ (r < rows)%nat ∧ (c < cols)%nat.
Proof.
  unfold positions. rewrite list_elem_of_bind. split.
  - intros (r' & Hin & Hr). apply list_elem_of_bind in Hin as (c' & Hin & Hc).
    apply list_elem_of_singleton in Hin as [= -> ->].
    apply elem_of_seq in Hr, Hc. lia.
  - intros [Hr Hc]. exists r. split; [|apply elem_of_seq; lia].
    apply list_elem_of_bind. exists c. split; [by apply list_elem_of_singleton|].
    apply elem_of_seq. lia.
Qed.







(** X11.  Two cells whose top faces are drawn on the same four points are
    the same cell: the heights 0..6 never shift one tile onto another. *)
Theorem distinct_cells_distinct_diamonds grid ox oy r c r' c' rgb rgb' pts :
  tile grid ox oy r c = Some (rgb, pts) →
  tile grid ox oy r' c' = Some (rgb', pts) →
  r = r' ∧ c = c'.
Proof.
  intros H1 H2.
  destruct (tile_inv _ _ _ _ _ _ _ H1) as (s & Hs & Hsr & Hlo & Hhi & Hp).
  destruct (tile_inv _ _ _ _ _ _ _ H2) as (s' & Hs' & Hsr' & Hlo' & Hhi' & Hp').
  pose proof (height_of_range s Hsr). pose proof (height_of_range s' Hsr').
  rewrite Hp in Hp'. injection Hp' as Hx Hy _.
  apply wrap32_eq in Hy as [k Hk]. lia.
Qed.

Lemma distinct_cells_distinct_diamonds_witness :
  (1 = 1 ∧ 0 = 0)%nat.
Proof.
  apply (distinct_cells_distinct_diamonds four_cells 5 7 1 0 1 0
           (255, 255, 255) (255, 255, 255) [(-11, -3); (5, 5); (-11, 13); (-27, 5)]);
    reflexivity.
Defined.



(** * Negative entries *)

Lemma canonical_range s : 0 <= canonical s <= 20.
Proof. unfold canonical. pose proof (Z.mod_pos_bound s 21). lia. Qed.

Lemma wt_canonical s : -21 <= s <= 20 → wt (canonical s) = wt s.
Proof.
  intros Hs. apply (Z_interval_cases (λ s, wt (canonical s) = wt s) (-21) 42); [|lia].
  vm_compute. reflexivity.
Qed.

Lemma draw_canonical s :
  -21 <= s <= 20 →
  height_of (canonical s) = height_of s ∧ color_of (canonical s) = color_of s.
Proof.
  intros Hs.
  apply (Z_interval_cases
    (λ s, height_of (canonical s) = height_of s ∧ color_of (canonical s) = color_of s)
    (-21) 42); [|lia].
  vm_compute. reflexivity.
Qed.

Lemma amap_rect (f : Z → Z) (grid : list (list Z)) :
  rect grid →
  amap f grid = tab (nrows grid) (ncols grid) (λ r c, f (cell grid r c)).
Proof. intros Hrect. rewrite <-amap_tab. f_equal. by apply rect_tab. Qed.

Lemma at2_amap {A B} (f : A → B) (x : list (list A)) r c :
  at2 (amap f x) r c = f <$> at2 x r c.
Proof.
  unfold at2, amap. rewrite list_lookup_fmap.
  destruct (x !! r) as [row|]; simpl; [|done]. by rewrite list_lookup_fmap.
Qed.

Lemma tile_canonical grid ox oy r c s :
  at2 grid r c = Some s → -21 <= s <= 20 →
  tile (amap canonical grid) ox oy r c = tile grid ox oy r c.
Proof.
  intros Hs Hr.
  rewrite (tile_entry grid _ _ _ _ s Hs Hr).
  rewrite (tile_entry (amap canonical grid) _ _ _ _ (canonical s)).
  - by destruct (draw_canonical s Hr) as [-> ->].
  - by rewrite at2_amap, Hs.
  - pose proof (canonical_range s). lia.
Qed.

(** X13.  A negative entry (the [-1] a step can write, down to -21) weighs
    in the vote and is drawn exactly as the state it indexes: replacing
    every entry g by g mod 21 gives a grid over [0, 20] with the same
    vote arrays and the same frame. *)
Theorem negative_entries_alias grid sw sh :
  rect grid → indexable grid →
  valid (amap canonical grid)
  ∧ vote (amap canonical grid) = vote grid
  ∧ render (nrows grid) (ncols grid) (amap canonical grid) sw sh
    = render (nrows grid) (ncols grid) grid sw sh.
Proof.
  intros Hrect Hidx.
  pose proof (amap_rect canonical grid Hrect) as Hmap.
  assert (valid (amap canonical grid)) as Hval.
  { rewrite Hmap. apply tab_Forall. intros. apply canonical_range. }
  assert (∀ r c, wt (canonical (cell grid r c)) = wt (cell grid r c)) as Hwt
    by (intros; by apply wt_canonical, cell_indexable).
  split; [done|]. split.
  - rewrite (vote_tab (amap canonical grid) (nrows grid) (ncols grid)
               (λ r c, canonical (cell grid r c)));
      [|intros r c; pose proof (canonical_range (cell grid r c)); lia
       |rewrite Hmap; apply tab_length
       |fold (ncols (amap canonical grid)); rewrite Hmap; apply tab_ncols, rect_empty
       |done].
    rewrite (vote_tab grid (nrows grid) (ncols grid) (cell grid));
      [|intros; by apply cell_indexable|done|done|by apply rect_tab].
    f_equal. f_equal.
    + apply tab_ext. intros. apply Hwt.
    + apply list_fmap_ext. intros _ [di dj] _. apply tab_ext. intros. by rewrite Hwt.
    + apply tab_ext. intros. by rewrite Hwt.
    + apply tab_ext. intros. rewrite Hwt. f_equal. apply list_fmap_ext.
      intros _ [di dj] _. by rewrite Hwt.
    + apply tab_ext. intros r c _ _. cbv zeta. rewrite Hwt.
      rewrite (list_fmap_ext
        (λ '(di, dj), tscale (coeff (wt (cell grid r c)) di dj)
           (wt (canonical (cell grid (wrap (nrows grid) (Z.of_nat r - di))
                                     (wrap (ncols grid) (Z.of_nat c - dj))))))
        (λ '(di, dj), tscale (coeff (wt (cell grid r c)) di dj)
           (wt (cell grid (wrap (nrows grid) (Z.of_nat r - di))
                          (wrap (ncols grid) (Z.of_nat c - dj)))))
        offsets); [done|].
      intros _ [di dj] _. by rewrite Hwt.
  - unfold render. fold (positions (nrows grid) (ncols grid)).
    rewrite (mapM_ext_in
      (λ '(row, col),
         '(rgb, pts) ← tile (amap canonical grid)
                          (offset_x (nrows grid) (ncols grid) sw)
                          (offset_y (nrows grid) (ncols grid) sh) row col;
         Some [Polygon rgb pts 0; Polygon (0, 0, 0) pts 1])
      (λ '(row, col),
         '(rgb, pts) ← tile grid
                          (offset_x (nrows grid) (ncols grid) sw)
                          (offset_y (nrows grid) (ncols grid) sh) row col;
         Some [Polygon rgb pts 0; Polygon (0, 0, 0) pts 1])); [done|].
    intros [r c] Hin. apply elem_of_positions in Hin as [Hr Hc].
    rewrite (tile_canonical grid _ _ r c (cell grid r c)); [done| |].
    + by apply cell_at2.
    + by apply cell_indexable.
Qed.

Lemma negative_entries_alias_witness :
  valid (amap canonical four_cells)
  ∧ vote (amap canonical four_cells) = vote four_cells
  ∧ render (nrows four_cells) (ncols four_cells) (amap canonical four_cells) 1920 1080
    = render (nrows four_cells) (ncols four_cells) four_cells 1920 1080.
Proof.
  apply negative_entries_alias.
  - repeat constructor.
  - repeat constructor; lia.
Defined.

(** * Where the direction of the roll does not show *)

Lemma symmetric_sum (w : triple) (u : Z → Z → triple) :
  w.1.1 = w.2 →
  tsum ((λ '(di, dj), tscale (coeff w di dj) (u (- di) (- dj))) <$> offsets)
  = tsum ((λ '(di, dj), tscale (coeff w di dj) (u di dj)) <$> offsets).
Proof.
  destruct w as [[a b] k]. simpl. intros ->. unfold tsum, offsets. simpl.
  change (- (-1)) with 1. change (- 0) with 0. change (- (1)) with (-1).
  destruct (u (-1) (-1)) as [[? ?] ?], (u (-1) 0) as [[? ?] ?],
    (u (-1) 1) as [[? ?] ?], (u 0 (-1)) as [[? ?] ?], (u 0 0) as [[? ?] ?],
    (u 0 1) as [[? ?] ?], (u 1 (-1)) as [[? ?] ?], (u 1 0) as [[? ?] ?],
    (u 1 1) as [[? ?] ?].
  unfold where3; simpl. repeat (apply (f_equal2 pair)); ring.
Qed.

(** X14.  At a cell whose weight (a, b, c) has a = c the weighted sum the
    code computes is the sum with the offsets read as (r + di, c + dj): the
    direction of the roll only shows at cells with a <> c. *)
Theorem symmetric_weight_hides_roll_direction grid r c :
  rect grid → indexable grid → (r < nrows grid)%nat → (c < ncols grid)%nat →
  (wt (cell grid r c)).1.1 = (wt (cell grid r c)).2 →
  ∃ v, vote grid = Some v
    ∧ at2 (weighted_sum v) r c = Some (spec_weighted_sum grid r c).
Proof.
  intros Hrect Hidx Hr Hc Hsym.
  destruct (vote_spec grid Hrect Hidx) as (v & Hv & _ & _ & Hws & _).
  exists v. split; [done|]. rewrite Hws, tab_lookup by done. f_equal.
  unfold cell_weighted_sum, spec_weighted_sum.
  rewrite <-(symmetric_sum (wt (cell grid r c))
    (λ di dj, wt (cell grid (wrap (nrows grid) (Z.of_nat r + di))
                            (wrap (ncols grid) (Z.of_nat c + dj)))) Hsym).
  reflexivity.
Qed.

Lemma symmetric_weight_hides_roll_direction_witness :
  ∃ v, vote nine_cells = Some v
    ∧ at2 (weighted_sum v) 0 1 = Some (spec_weighted_sum nine_cells 0 1).
Proof.
  apply symmetric_weight_hides_roll_direction.
  - repeat constructor.
  - repeat constructor; lia.
  - vm_compute. lia.
  - vm_compute. lia.
  - reflexivity.
Defined.
